(** * Geodesic lattice sphere: dual builder and organic jitter

    A shallow embedding of [geodesic_sphere.py]: the helpers
    [project_to_radius] and [tangent_basis], the tangential field smoother
    [organic_jitter_dual_on_sphere] and the dual builder
    [build_dual_from_object].

    The script computes with the host's floating-point vectors.  The
    embedding is written once over an abstract scalar interface [Scalar]
    (the operations the script applies to numbers, with no law assumed), so
    that the structural results hold whatever the arithmetic is; the results
    that need algebra are proved for the instance of the interface on the
    real numbers. *)

From Stdlib Require Import List Bool Arith ZArith Lia Permutation Sorted.
From Stdlib Require Import Reals Lra.
Import ListNotations.

Set Implicit Arguments.

(* ------------------------------------------------------------------ *)
(** ** Scalars *)

(** The numeric operations used by the script: arithmetic, [abs],
    [math.cos], [math.sin], [math.atan2], [math.pi], the square root behind
    [Vector.length], and the comparisons [<] and [==]. *)
Class Scalar (F : Type) : Type := {
  f_of_Z : Z -> F;
  fadd : F -> F -> F;
  fsub : F -> F -> F;
  fmul : F -> F -> F;
  fdiv : F -> F -> F;
  fabs : F -> F;
  fsqrt : F -> F;
  fcos : F -> F;
  fsin : F -> F;
  fatan2 : F -> F -> F;
  fpi : F;
  fltb : F -> F -> bool;
  feqb : F -> F -> bool
}.

(** The module-level generator of Python's [random]: [random.seed] replaces
    its state, [random.random] draws a number of [[0, 1)] and advances it. *)
Class Rng (F : Type) : Type := {
  RngState : Type;
  rng_seed : Z -> RngState;
  rng_random : RngState -> F * RngState
}.

(* ------------------------------------------------------------------ *)
(** ** Vectors and meshes *)

Record Vector (F : Type) : Type := mkVector { vx : F; vy : F; vz : F }.

(** A mesh as an arena: vertex positions, edges as pairs of vertex indices,
    faces as cyclic lists of vertex indices. *)
Record BMesh (F : Type) : Type := mkBMesh {
  verts : list (Vector F);
  edges : list (nat * nat);
  faces : list (list nat)
}.

(** The exceptions the host's [faces.new] raises. *)
Inductive PyExn : Type := ValueError | TypeError.

Inductive Res (A : Type) : Type :=
| Ok (a : A)
| Raise (e : PyExn).
Arguments Raise {A} e.

Section Model.

Context {F : Type} {SF : Scalar F}.

Local Abbreviation Vec := (Vector F).
Local Abbreviation Mesh := (BMesh F).

Definition f0 : F := f_of_Z 0.
Definition f1 : F := f_of_Z 1.
Definition f2 : F := f_of_Z 2.
(** The literals [0.9], [1e-9] and [0.2]. *)
Definition lit_0_9 : F := fdiv (f_of_Z 9) (f_of_Z 10).
Definition lit_1e_9 : F := fdiv (f_of_Z 1) (f_of_Z 1000000000).
Definition lit_0_2 : F := fdiv (f_of_Z 2) (f_of_Z 10).
(** The constant [1.0e-35] of the host's normalization. *)
Definition lit_1e_35 : F :=
  fdiv (f_of_Z 1) (f_of_Z 100000000000000000000000000000000000).
Definition f_of_nat (n : nat) : F := f_of_Z (Z.of_nat n).

Definition vzero : Vec := mkVector f0 f0 f0.

Definition vadd (p q : Vec) : Vec :=
  mkVector (fadd (vx p) (vx q)) (fadd (vy p) (vy q)) (fadd (vz p) (vz q)).

Definition vsub (p q : Vec) : Vec :=
  mkVector (fsub (vx p) (vx q)) (fsub (vy p) (vy q)) (fsub (vz p) (vz q)).

(** [p * s] and [s * p]. *)
Definition vmuls (p : Vec) (s : F) : Vec :=
  mkVector (fmul (vx p) s) (fmul (vy p) s) (fmul (vz p) s).

Definition smulv (s : F) (p : Vec) : Vec :=
  mkVector (fmul s (vx p)) (fmul s (vy p)) (fmul s (vz p)).

(** [p / s]. *)
Definition vdivs (p : Vec) (s : F) : Vec :=
  mkVector (fdiv (vx p) s) (fdiv (vy p) s) (fdiv (vz p) s).

Definition vdot (p q : Vec) : F :=
  fadd (fadd (fmul (vx p) (vx q)) (fmul (vy p) (vy q))) (fmul (vz p) (vz q)).

Definition vcross (p q : Vec) : Vec :=
  mkVector (fsub (fmul (vy p) (vz q)) (fmul (vz p) (vy q)))
           (fsub (fmul (vz p) (vx q)) (fmul (vx p) (vz q)))
           (fsub (fmul (vx p) (vy q)) (fmul (vy p) (vx q))).

(** [p.length]. *)
Definition vlength (p : Vec) : F := fsqrt (vdot p p).

(** [p.normalized()] (and the in-place [p.normalize()]): the host divides
    a vector by its length if its square length is above [1.0e-35], and
    returns the zero vector otherwise. *)
Definition normalized (p : Vec) : Vec :=
  if fltb lit_1e_35 (vdot p p) then vdivs p (vlength p) else vzero.

(** [a.lerp(b, fac)]. *)
Definition vlerp (a b : Vec) (fac : F) : Vec :=
  vadd (smulv (fsub f1 fac) a) (smulv fac b).

(* ------------------------------------------------------------------ *)
(** ** Helpers of the script *)

Definition project_to_radius (p : Vec) (radius : F) : Vec :=
  if feqb (vlength p) f0 then mkVector radius f0 f0
  else vmuls (normalized p) radius.

Definition tangent_basis (n : Vec) : Vec * Vec :=
  let n := normalized n in
  let a := if fltb (fabs (vx n)) lit_0_9
           then mkVector f1 f0 f0 else mkVector f0 f1 f0 in
  let t := normalized (vcross n a) in
  let b := normalized (vcross n t) in
  (t, b).

(* ------------------------------------------------------------------ *)
(** ** Mesh queries of the host *)

Definition vert_co (m : Mesh) (v : nat) : Vec := nth v (verts m) vzero.

Definition face_at (m : Mesh) (f : nat) : list nat := nth f (faces m) [].

Definition mem (x : nat) (l : list nat) : bool := existsb (Nat.eqb x) l.

(** [v.link_edges]: the edges that have [v] as an end. *)
Definition link_edges (m : Mesh) (v : nat) : list (nat * nat) :=
  filter (fun e => (fst e =? v) || (snd e =? v)) (edges m).

(** [e.other_vert(v)]. *)
Definition other_vert (v : nat) (e : nat * nat) : nat :=
  if fst e =? v then snd e else fst e.

(** [v.link_faces]: the faces that have [v] as a corner, listed here by
    ascending index.  The host lists them in an order of its own; what
    depends on the order of the listing is stated for any listing. *)
Definition link_faces (m : Mesh) (v : nat) : list nat :=
  filter (fun f => mem v (face_at m f)) (seq 0 (length (faces m))).

(** [f.calc_center_median()]: the corner positions summed, times [1/len]. *)
Definition calc_center_median (m : Mesh) (f : nat) : Vec :=
  let corners := face_at m f in
  vmuls (fold_left vadd (map (vert_co m) corners) vzero)
        (fdiv f1 (f_of_nat (length corners))).

(* ------------------------------------------------------------------ *)
(** ** The tangential field smoother *)

Section Jitter.

Context {RG : Rng F}.

(** [random.seed(seed)]: the state the generator had is dropped. *)
Definition random_seed (seed : Z) (g : RngState) : RngState := rng_seed seed.

(** [random.uniform(a, b)] is [a + (b - a) * random()]. *)
Definition uniform (a b : F) (g : RngState) : F * RngState :=
  let (r, g') := rng_random g in (fadd a (fmul (fsub b a) r), g').

(** The adjacency list [nbrs[v]]. *)
Definition nbrs (m : Mesh) (v : nat) : list nat :=
  map (other_vert v) (link_edges m v).

(** The body of the first loop: the random tangent offset of one vertex. *)
Definition initial_offset (strength : F) (co : Vec) (g : RngState)
  : Vec * RngState :=
  let n := normalized co in
  let (t, b) := tangent_basis n in
  let (ang, g1) := uniform f0 (fmul f2 fpi) g in
  let dir_tan := vadd (smulv (fcos ang) t) (smulv (fsin ang) b) in
  let (u, g2) := uniform lit_0_2 f1 g1 in
  let mag := fmul u strength in
  (vmuls (normalized dir_tan) mag, g2).

Fixpoint initial_offsets (strength : F) (vs : list Vec) (g : RngState)
  : list Vec * RngState :=
  match vs with
  | [] => ([], g)
  | co :: vs' =>
      let (o, g1) := initial_offset strength co g in
      let (os, g2) := initial_offsets strength vs' g1 in
      (o :: os, g2)
  end.

(** [offsets[v]]. *)
Definition offset_at (offsets : list Vec) (v : nat) : Vec :=
  nth v offsets vzero.

(** The inner loop over [nbrs[v]]: the running sum and the count. *)
Definition accumulate (offsets : list Vec) (us : list nat) : Vec * nat :=
  fold_left (fun st u => (vadd (fst st) (offset_at offsets u), S (snd st)))
            us (vzero, 0%nat).

Definition smooth_vertex (m : Mesh) (lam : F) (offsets : list Vec) (v : nat)
  : Vec :=
  let (acc, ln) := accumulate offsets (nbrs m v) in
  if (0 <? ln)%nat
  then vlerp (offset_at offsets v) (vdivs acc (f_of_nat ln)) lam
  else offset_at offsets v.

(** One pass of the smoothing loop: [new_offsets]. *)
Definition smooth_pass (m : Mesh) (lam : F) (offsets : list Vec) : list Vec :=
  map (smooth_vertex m lam offsets) (seq 0 (length (verts m))).

(** [range(max(0, smooth_iters))]. *)
Definition smooth_count (smooth_iters : Z) : nat :=
  Z.to_nat (Z.max 0 smooth_iters).

Fixpoint smooth_loop (k : nat) (m : Mesh) (lam : F) (offsets : list Vec)
  : list Vec :=
  match k with
  | O => offsets
  | S k' => smooth_loop k' m lam (smooth_pass m lam offsets)
  end.

(** The offset that the last loop adds to a position: [off] without its
    component along the normal. *)
Definition tangential (co off : Vec) : Vec :=
  let n := normalized co in
  vsub off (vmuls n (vdot off n)).

Definition apply_offset (radius : F) (co off : Vec) : Vec :=
  project_to_radius (vadd co (tangential co off)) radius.

(** The offset field after seeding and smoothing, with the generator's
    state after the draws. *)
Definition jitter_offsets (g : RngState) (m : Mesh) (strength : F)
  (smooth_iters : Z) (lam : F) (seed : Z) : list Vec * RngState :=
  let g0 := random_seed seed g in
  let (offsets, g') := initial_offsets strength (verts m) g0 in
  (smooth_loop (smooth_count smooth_iters) m lam offsets, g').

(** [organic_jitter_dual_on_sphere]: [g] is the state of the module-level
    generator when the function is called; the result is the mesh as
    written back and the state the generator is left in. *)
Definition organic_jitter_dual_on_sphere (g : RngState) (dual_obj : Mesh)
  (radius strength : F) (smooth_iters : Z) (lam : F) (seed : Z)
  : Mesh * RngState :=
  let (offsets, g') :=
    jitter_offsets g dual_obj strength smooth_iters lam seed in
  (mkBMesh
     (map (fun v => apply_offset radius (vert_co dual_obj v) (offset_at offsets v))
          (seq 0 (length (verts dual_obj))))
     (edges dual_obj)
     (faces dual_obj),
   g').

End Jitter.

(* ------------------------------------------------------------------ *)
(** ** The dual builder *)

Section Dual.

(** [bmesh.ops.triangulate], an operator of the host. *)
Variable triangulate : Mesh -> Mesh.

Fixpoint nodupb (l : list nat) : bool :=
  match l with
  | [] => true
  | x :: l' => negb (mem x l') && nodupb l'
  end.

Fixpoint list_eqb (a b : list nat) : bool :=
  match a, b with
  | [], [] => true
  | x :: a', y :: b' => (x =? y) && list_eqb a' b'
  | _, _ => false
  end.

(** The cyclic shifts of a face. *)
Definition rotations (f : list nat) : list (list nat) :=
  map (fun k => skipn k f ++ firstn k f) (seq 0 (length f)).

(** The host's test for an existing face: the face [f] has the corners
    [vs] in the same cyclic order, in one direction or the other. *)
Definition same_verts (vs f : list nat) : bool :=
  existsb (fun r => list_eqb r vs || list_eqb (rev r) vs) (rotations f).

Definition has_edge (es : list (nat * nat)) (a b : nat) : bool :=
  existsb (fun e => ((fst e =? a) && (snd e =? b))
                    || ((fst e =? b) && (snd e =? a))) es.

Definition add_edge (es : list (nat * nat)) (e : nat * nat)
  : list (nat * nat) :=
  if has_edge es (fst e) (snd e) then es else es ++ [e].

(** The sides of a face: each corner with its predecessor, cyclically, in
    the order in which the host makes the edges: the side from the last
    corner to the first, then the sides from each corner to the next. *)
Definition cyclic_pairs (vs : list nat) : list (nat * nat) :=
  combine (last vs 0 :: removelast vs) vs.

(** [dual_bm.faces.new(vs)] of the host: a sequence of fewer than three
    vertices is a [TypeError]; a vertex used twice, or a face that exists
    already on these vertices in this cyclic order, is a [ValueError];
    otherwise the face is added, with the sides that are not yet edges. *)
Definition faces_new (d : Mesh) (vs : list nat) : Res Mesh :=
  if length vs <? 3 then Raise TypeError
  else if negb (nodupb vs) then Raise ValueError
  else if existsb (same_verts vs) (faces d) then Raise ValueError
  else Ok (mkBMesh (verts d)
                   (fold_left add_edge (cyclic_pairs vs) (edges d))
                   (faces d ++ [vs])).

(** The first loop: one dual vertex per face, at its centre, and the map
    [face_to_dv] (the entry at position [f] is the dual vertex of face [f]). *)
Fixpoint emit_dual_verts (bm : Mesh) (fs : list nat) (dvs : list Vec)
  (face_to_dv : list nat) : list Vec * list nat :=
  match fs with
  | [] => (dvs, face_to_dv)
  | f :: fs' =>
      let c := calc_center_median bm f in
      let dv := length dvs in
      emit_dual_verts bm fs' (dvs ++ [c]) (face_to_dv ++ [dv])
  end.

(** The angle [ang] of the face [f] around a vertex at [co] with normal [n]
    and tangent basis [t], [b]. *)
Definition face_angle (bm : Mesh) (co n t b : Vec) (f : nat) : F :=
  let c := calc_center_median bm f in
  let u := vsub c co in
  let u := vsub u (vmuls n (vdot u n)) in
  if fltb (vlength u) lit_1e_9 then f0
  else
    let u := normalized u in
    fatan2 (vdot u b) (vdot u t).

(** [items.sort(key=lambda x: x[0])]: a stable sort that compares keys
    with [<] only. *)
Fixpoint insert_by_key (x : F * nat) (l : list (F * nat)) : list (F * nat) :=
  match l with
  | [] => [x]
  | y :: l' =>
      if fltb (fst y) (fst x) then y :: insert_by_key x l' else x :: y :: l'
  end.

Definition sort_by_key (l : list (F * nat)) : list (F * nat) :=
  fold_right insert_by_key [] l.

(** [items] of a vertex with incident faces [linked], before sorting. *)
Definition items_of (bm : Mesh) (v : nat) (linked : list nat)
  : list (F * nat) :=
  let co := vert_co bm v in
  let n := normalized co in
  let (t, b) := tangent_basis n in
  map (fun f => (face_angle bm co n t b f, f)) linked.

(** [dverts]: the dual vertices of the sorted incident faces. *)
Definition dual_corners (bm : Mesh) (face_to_dv : list nat) (v : nat)
  : list nat :=
  map (fun it => nth (snd it) face_to_dv 0%nat)
      (sort_by_key (items_of bm v (link_faces bm v))).

(** The body of the second loop for the vertex [v]. *)
Definition dual_step (bm : Mesh) (face_to_dv : list nat) (d : Mesh) (v : nat)
  : Res Mesh :=
  if length (link_faces bm v) <? 3 then Ok d
  else
    match faces_new d (dual_corners bm face_to_dv v) with
    | Ok d' => Ok d'
    | Raise ValueError => Ok d
    | Raise e => Raise e
    end.

Fixpoint dual_loop (bm : Mesh) (face_to_dv : list nat) (vs : list nat)
  (d : Mesh) : Res Mesh :=
  match vs with
  | [] => Ok d
  | v :: vs' =>
      match dual_step bm face_to_dv d v with
      | Ok d' => dual_loop bm face_to_dv vs' d'
      | Raise e => Raise e
      end
  end.

(** [build_dual_from_object]: the mesh data of the object it returns, or
    the exception it raises. *)
Definition build_dual_from_object (obj : Mesh) : Res Mesh :=
  let bm := triangulate obj in
  let (dvs, face_to_dv) :=
    emit_dual_verts bm (seq 0 (length (faces bm))) [] [] in
  dual_loop bm face_to_dv (seq 0 (length (verts bm))) (mkBMesh dvs [] []).

End Dual.

(* ------------------------------------------------------------------ *)
(** ** Properties of input meshes *)

(** The number of incident faces of a vertex, as the dual builder counts. *)
Definition valence (m : Mesh) (v : nat) : nat := length (link_faces m v).

(** The vertices of [vs] that get a dual face: valence three or more. *)
Definition fan_vertices (m : Mesh) (vs : list nat) : list nat :=
  filter (fun v => 3 <=? valence m v) vs.

Definition all_triangles (m : Mesh) : bool :=
  forallb (fun f => length f =? 3) (faces m).

(** The faces that have both [a] and [b] as corners. *)
Definition shared_faces (m : Mesh) (a b : nat) : list (list nat) :=
  filter (fun f => mem a f && mem b f) (faces m).

(** Closed and manifold: two distinct vertices are joined by no edge, or by
    an edge that borders exactly two faces. *)
Definition closed_manifold (m : Mesh) : bool :=
  forallb (fun a =>
    forallb (fun b =>
      (a =? b) || (length (shared_faces m a b) =? 0)
               || (length (shared_faces m a b) =? 2))
      (seq 0 (length (verts m))))
    (seq 0 (length (verts m))).

End Model.

(* ------------------------------------------------------------------ *)
(** ** The real numbers as scalars *)

Definition Rltb (a b : R) : bool := if Rlt_dec a b then true else false.

Definition Reqb (a b : R) : bool := if Req_dec_T a b then true else false.

(** [math.atan2(y, x)]: the angle of the point [(x, y)], in [(-pi, pi]],
    and [0] at the origin. *)
Definition Ratan2 (y x : R) : R :=
  if Rlt_dec 0 x then atan (y / x)
  else if Rlt_dec x 0 then
    if Rle_dec 0 y then (atan (y / x) + PI)%R else (atan (y / x) - PI)%R
  else if Rlt_dec 0 y then (PI / 2)%R
  else if Rlt_dec y 0 then (- (PI / 2))%R
  else 0%R.

#[export] Instance RScalar : Scalar R := {|
  f_of_Z := IZR;
  fadd := Rplus;
  fsub := Rminus;
  fmul := Rmult;
  fdiv := Rdiv;
  fabs := Rabs;
  fsqrt := sqrt;
  fcos := cos;
  fsin := sin;
  fatan2 := Ratan2;
  fpi := PI;
  fltb := Rltb;
  feqb := Reqb
|}.

(** A linear congruential generator, an instance of [Rng] to run the
    smoother on. *)
Definition lcg_next (s : Z) : Z := ((1103515245 * s + 12345) mod 2147483648)%Z.

#[export] Instance LcgRng : Rng R := {|
  RngState := Z;
  rng_seed := fun seed => (seed mod 2147483648)%Z;
  rng_random := fun s => ((IZR (lcg_next s) / IZR 2147483648)%R, lcg_next s)
|}.

(* ------------------------------------------------------------------ *)
(** ** Reference notions the properties are stated with *)

(** The signed angle of face [f] around vertex [v] as the description of
    the dual builder words it: the direction from [v] to the centre of [f],
    without its normal component, normalized, then [atan2] of its
    coordinates in the tangent basis of [v]. *)
Definition signed_angle (bm : BMesh R) (v f : nat) : R :=
  let co := vert_co bm v in
  let n := normalized co in
  let (t, b) := tangent_basis n in
  let c := calc_center_median bm f in
  let d := vsub (vsub c co) (vmuls n (vdot (vsub c co) n)) in
  let dir := normalized d in
  Ratan2 (vdot dir b) (vdot dir t).

(** The angle the script sorts by: [signed_angle], except that a projected
    direction shorter than [1e-9] counts as angle [0]. *)
Definition guarded_angle (bm : BMesh R) (v f : nat) : R :=
  let co := vert_co bm v in
  let n := normalized co in
  let d := vsub (vsub (calc_center_median bm f) co)
                (vmuls n (vdot (vsub (calc_center_median bm f) co) n)) in
  if Rlt_dec (vlength d) (1 / 1000000000)%R then 0%R else signed_angle bm v f.

(** The arithmetic mean of a list of vectors, coordinate by coordinate. *)
Definition mean_of (l : list (Vector R)) : Vector R :=
  mkVector
    (fold_right Rplus 0 (map (@vx R) l) / INR (length l))%R
    (fold_right Rplus 0 (map (@vy R) l) / INR (length l))%R
    (fold_right Rplus 0 (map (@vz R) l) / INR (length l))%R.

(** The vectors the host's normalization turns into unit vectors: those of
    square length above [1.0e-35]. *)
Definition normalizable (p : Vector R) : Prop :=
  (1 / 100000000000000000000000000000000000 < vdot p p)%R.

(** An offset field that is zero at every vertex. *)
Definition zero_field (offsets : list (Vector R)) : Prop :=
  forall u, offset_at offsets u = vzero.

(** The order of two items of the sort: by their keys. *)
Definition key_le (x y : R * nat) : Prop := (fst x <= fst y)%R.

(* ------------------------------------------------------------------ *)
(** ** Sample meshes *)

Definition rvec (x y z : R) : Vector R := mkVector x y z.

(** The regular octahedron inscribed in the unit sphere. *)
Definition octahedron : BMesh R :=
  mkBMesh
    [rvec 1 0 0; rvec (-1) 0 0; rvec 0 1 0; rvec 0 (-1) 0; rvec 0 0 1;
     rvec 0 0 (-1)]%R
    [(0, 2); (2, 1); (1, 3); (3, 0); (0, 4); (2, 4); (1, 4); (3, 4);
     (0, 5); (2, 5); (1, 5); (3, 5)]%nat
    [[0; 2; 4]; [2; 1; 4]; [1; 3; 4]; [3; 0; 4];
     [2; 0; 5]; [1; 2; 5]; [3; 1; 5]; [0; 3; 5]]%nat.

(** A fan of three triangles around vertex [0] at [(1, 0, 0)]: the centre
    of the first triangle lies almost on the normal through the vertex. *)
Definition skew_fan : BMesh R :=
  mkBMesh
    [rvec 1 0 0;
     rvec 1 0 (- (3 / 2000000000)); rvec 4 0 0;
     rvec 1 (-3) 0; rvec 7 0 0;
     rvec 1 3 0; rvec 10 0 0]%R
    []
    [[0; 1; 2]; [0; 3; 4]; [0; 5; 6]]%nat.

(** Three triangles around the common edge of the vertices [0] and [1]:
    not a manifold. *)
Definition book : BMesh R :=
  mkBMesh
    [rvec 0 0 1; rvec 0 0 (-1); rvec 1 0 0; rvec 0 1 0; rvec (-1) (-1) 0]%R
    []
    [[0; 1; 2]; [0; 1; 3]; [0; 1; 4]]%nat.

(** The mesh a call of the dual builder leaves, the empty mesh if it
    raised. *)
Definition dual_or_empty (r : Res (BMesh R)) : BMesh R :=
  match r with
  | Ok d => d
  | Raise _ => mkBMesh [] [] []
  end.

(** The dual of the octahedron, as the script builds it. *)
Definition octahedron_dual : BMesh R :=
  dual_or_empty (build_dual_from_object (fun m => m) octahedron).

(** A single vertex at distance [1e-20] from the origin. *)
Definition speck : BMesh R :=
  mkBMesh [rvec (1 / 100000000000000000000) 0 0]%R [] [].

(** A path of two edges on three points and a fourth point with no edge. *)
Definition path_mesh : BMesh R :=
  mkBMesh [rvec 1 0 0; rvec 0 2 0; rvec 0 0 3; rvec 5 5 5]%R
          [(0, 1); (1, 2)]%nat [].

(* ------------------------------------------------------------------ *)
(** ** The script body, and notions for further properties *)

(** [max(a, b)] of Python on two numbers: [b] if [b > a], else [a]. *)
Definition pymax {F : Type} {SF : Scalar F} (a b : F) : F :=
  if fltb a b then b else a.

(** [inner_radius = max(0.01, sphere_radius - wall_thickness)]. *)
Definition inner_radius {F : Type} {SF : Scalar F}
  (sphere_radius wall_thickness : F) : F :=
  pymax (fdiv (f_of_Z 1) (f_of_Z 100)) (fsub sphere_radius wall_thickness).

(** Steps 2 of the script: the dual of the base sphere, then the jitter
    pass on it; an exception of the dual builder ends the script. *)
Definition dual_then_jitter {F : Type} {SF : Scalar F} {RG : Rng F}
  (triangulate : BMesh F -> BMesh F) (g : RngState) (base : BMesh F)
  (radius strength : F) (smooth_iters : Z) (lam : F) (seed : Z)
  : Res (BMesh F * RngState) :=
  match build_dual_from_object triangulate base with
  | Ok dual =>
      Ok (organic_jitter_dual_on_sphere g dual radius strength smooth_iters
            lam seed)
  | Raise e => Raise e
  end.

(** The state of the generator after [k] draws. *)
Definition draws {F : Type} {RG : Rng F} (k : nat) (g : RngState)
  : RngState :=
  Nat.iter k (fun g' => snd (rng_random g')) g.

(** Every draw of the generator is a number of [[0, 1]]. *)
Definition unit_draws (RG : Rng R) : Prop :=
  forall g : RngState, (0 <= fst (rng_random g) <= 1)%R.

(** The ends of every edge are vertices of the mesh. *)
Definition edges_in_range {F : Type} (m : BMesh F) : Prop :=
  forall e, In e (edges m) ->
    fst e < length (verts m) /\ snd e < length (verts m).

(** An offset field with the value [c] at every vertex of [m]. *)
Definition constant_field (m : BMesh R) (c : Vector R)
  (offsets : list (Vector R)) : Prop :=
  length offsets = length (verts m)
  /\ forall u, u < length (verts m) -> offset_at offsets u = c.

(** The edges are sides of faces, and every side of a face is an edge. *)
Definition sides_are_edges {F : Type} (d : BMesh F) : Prop :=
  Forall (fun e => exists fc, In fc (faces d) /\ In e (cyclic_pairs fc))
         (edges d)
  /\ Forall (fun fc =>
       Forall (fun e => has_edge (edges d) (fst e) (snd e) = true)
              (cyclic_pairs fc))
     (faces d).

(** An offset field in which no offset is longer than [B]. *)
Definition bounded_field (B : R) (offsets : list (Vector R)) : Prop :=
  forall u, (vdot (offset_at offsets u) (offset_at offsets u) <= B * B)%R.

Unset Implicit Arguments.

(* ------------------------------------------------------------------ *)
(** * Results that hold for every arithmetic *)

Section Structural.

Context {F : Type} {SF : Scalar F} {RG : Rng F}.

Local Abbreviation Vec := (Vector F).
Local Abbreviation Mesh := (BMesh F).

Lemma initial_offsets_length (strength : F) (vs : list Vec) (g : RngState) :
  length (fst (initial_offsets strength vs g)) = length vs.
Proof.
  revert g; induction vs as [|co vs IH]; intros g; simpl; [reflexivity|].
  destruct (initial_offset strength co g) as [o g1].
  specialize (IH g1).
  destruct (initial_offsets strength vs g1) as [os g2]; simpl in *.
  now rewrite IH.
Qed.

Lemma smooth_pass_length (m : Mesh) (lam : F) (offsets : list Vec) :
  length (smooth_pass m lam offsets) = length (verts m).
Proof. unfold smooth_pass. now rewrite length_map, length_seq. Qed.

Lemma jitter_verts (g : RngState) (m : Mesh) (radius strength : F)
  (iters : Z) (lam : F) (seed : Z) :
  verts (fst (organic_jitter_dual_on_sphere g m radius strength iters lam seed))
  = map (fun v => apply_offset radius (vert_co m v)
                    (offset_at (fst (jitter_offsets g m strength iters lam seed)) v))
        (seq 0 (length (verts m))).
Proof.
  unfold organic_jitter_dual_on_sphere.
  destruct (jitter_offsets g m strength iters lam seed) as [offs g']; reflexivity.
Qed.

(** C8: the smoother changes vertex positions only: the mesh it writes back
    has as many vertices as before, and the same edges and faces. *)
Theorem jitter_preserves_topology (g : RngState) (m : Mesh)
  (radius strength : F) (iters : Z) (lam : F) (seed : Z) :
  let m' :=
    fst (organic_jitter_dual_on_sphere g m radius strength iters lam seed) in
  length (verts m') = length (verts m)
  /\ edges m' = edges m
  /\ faces m' = faces m.
Proof.
  intros m'; subst m'; unfold organic_jitter_dual_on_sphere.
  destruct (jitter_offsets g m strength iters lam seed) as [offs g']; simpl.
  rewrite length_map, length_seq; auto.
Qed.

(** C4: the smoother is deterministic: whatever state the module-level
    generator is in when the function is called, equal seed, mesh, radius,
    strength, iteration count and lambda give equal positions (and leave the
    generator in equal states). *)
Theorem jitter_deterministic (g1 g2 : RngState) (m : Mesh)
  (radius strength : F) (iters : Z) (lam : F) (seed : Z) :
  organic_jitter_dual_on_sphere g1 m radius strength iters lam seed
  = organic_jitter_dual_on_sphere g2 m radius strength iters lam seed.
Proof.
  unfold organic_jitter_dual_on_sphere, jitter_offsets, random_seed.
  reflexivity.
Qed.

Lemma smooth_count_nonpos (iters : Z) : (iters <= 0)%Z -> smooth_count iters = 0%nat.
Proof. intros Hle; unfold smooth_count. rewrite Z.max_l by lia. reflexivity. Qed.

(** C10: an iteration count of zero or less runs no smoothing pass: the
    offsets are the initial ones, and the result is that of a count of [0]. *)
Theorem nonpositive_iters_no_smoothing (g : RngState) (m : Mesh)
  (radius strength : F) (iters : Z) (lam : F) (seed : Z) :
  (iters <= 0)%Z ->
  smooth_count iters = 0%nat
  /\ fst (jitter_offsets g m strength iters lam seed)
     = fst (initial_offsets strength (verts m) (random_seed seed g))
  /\ organic_jitter_dual_on_sphere g m radius strength iters lam seed
     = organic_jitter_dual_on_sphere g m radius strength 0 lam seed.
Proof.
  intros Hle.
  pose proof (smooth_count_nonpos iters Hle) as Hc.
  split; [exact Hc|].
  unfold organic_jitter_dual_on_sphere, jitter_offsets.
  rewrite Hc.
  destruct (initial_offsets strength (verts m) (random_seed seed g)) as [offs g'].
  split; reflexivity.
Qed.

End Structural.

(* ------------------------------------------------------------------ *)
(** * The dual builder, for every arithmetic *)

Section DualStructure.

Context {F : Type} {SF : Scalar F}.

Local Abbreviation Vec := (Vector F).
Local Abbreviation Mesh := (BMesh F).

Variable triangulate : Mesh -> Mesh.

Lemma emit_dual_verts_eq (bm : Mesh) (fs : list nat) (dvs : list Vec)
  (ftd : list nat) :
  emit_dual_verts bm fs dvs ftd
  = (dvs ++ map (calc_center_median bm) fs,
     ftd ++ seq (length dvs) (length fs)).
Proof.
  revert dvs ftd; induction fs as [|f fs IH]; intros dvs ftd; simpl.
  - now rewrite !app_nil_r.
  - rewrite IH, <- !app_assoc, length_app; simpl.
    now rewrite Nat.add_1_r.
Qed.

Lemma insert_by_key_perm (x : F * nat) (l : list (F * nat)) :
  Permutation (insert_by_key x l) (x :: l).
Proof.
  induction l as [|y l IH]; simpl; [apply Permutation_refl|].
  destruct (fltb (fst y) (fst x)).
  - eapply perm_trans; [apply perm_skip, IH | apply perm_swap].
  - apply Permutation_refl.
Qed.

Lemma sort_by_key_perm (l : list (F * nat)) : Permutation (sort_by_key l) l.
Proof.
  induction l as [|x l IH]; simpl; [constructor|].
  eapply perm_trans; [apply insert_by_key_perm | now apply perm_skip].
Qed.

Lemma items_of_snd (bm : Mesh) (v : nat) (linked : list nat) :
  map snd (items_of bm v linked) = linked.
Proof.
  unfold items_of.
  destruct (tangent_basis (normalized (vert_co bm v))) as [t b].
  rewrite map_map; simpl. apply map_id.
Qed.

Lemma link_faces_lt (bm : Mesh) (v f : nat) :
  In f (link_faces bm v) -> f < length (faces bm).
Proof.
  unfold link_faces; intros Hin.
  apply filter_In in Hin as [Hin _]. apply in_seq in Hin. lia.
Qed.

Lemma link_faces_NoDup (bm : Mesh) (v : nat) : NoDup (link_faces bm v).
Proof. unfold link_faces. apply NoDup_filter, seq_NoDup. Qed.

(** With the map the first loop builds, the corners of the dual face of [v]
    are the incident faces of [v] themselves, in sorted order. *)
Lemma dual_corners_sorted_faces (bm : Mesh) (v : nat) :
  dual_corners bm (seq 0 (length (faces bm))) v
  = map snd (sort_by_key (items_of bm v (link_faces bm v))).
Proof.
  unfold dual_corners. apply map_ext_in.
  intros it Hin.
  assert (Hf : In (snd it) (link_faces bm v)).
  { rewrite <- (items_of_snd bm v (link_faces bm v)).
    apply in_map.
    eapply Permutation_in; [apply sort_by_key_perm | exact Hin]. }
  apply link_faces_lt in Hf.
  now rewrite seq_nth.
Qed.

Lemma dual_corners_perm (bm : Mesh) (v : nat) :
  Permutation (dual_corners bm (seq 0 (length (faces bm))) v)
              (link_faces bm v).
Proof.
  rewrite dual_corners_sorted_faces.
  rewrite <- (items_of_snd bm v (link_faces bm v)) at 2.
  apply Permutation_map, sort_by_key_perm.
Qed.

Lemma dual_corners_length (bm : Mesh) (ftd : list nat) (v : nat) :
  length (dual_corners bm ftd v) = valence bm v.
Proof.
  unfold dual_corners, valence. rewrite length_map.
  rewrite (Permutation_length (sort_by_key_perm _)).
  rewrite <- (items_of_snd bm v (link_faces bm v)) at 2.
  now rewrite length_map.
Qed.

Lemma faces_new_ok (d d' : Mesh) (vs : list nat) :
  faces_new d vs = Ok d' ->
  verts d' = verts d /\ faces d' = faces d ++ [vs].
Proof.
  unfold faces_new.
  destruct (length vs <? 3); [discriminate|].
  destruct (negb (nodupb vs)); [discriminate|].
  destruct (existsb (same_verts vs) (faces d)); [discriminate|].
  intros [= <-]; simpl; auto.
Qed.

Lemma faces_new_no_type_error (d : Mesh) (vs : list nat) :
  3 <= length vs -> faces_new d vs <> Raise TypeError.
Proof.
  intros Hlen; unfold faces_new.
  destruct (length vs <? 3) eqn:E; [apply Nat.ltb_lt in E; lia|].
  destruct (negb (nodupb vs)); [discriminate|].
  destruct (existsb (same_verts vs) (faces d)); discriminate.
Qed.

(** What one round of the second loop does: nothing for a vertex of
    valence below three; otherwise the face is added if the host accepts
    it and left out if the host refuses it. *)
Lemma dual_step_eq (bm : Mesh) (ftd : list nat) (d : Mesh) (v : nat) :
  dual_step bm ftd d v
  = Ok (if valence bm v <? 3 then d
        else match faces_new d (dual_corners bm ftd v) with
             | Ok d' => d'
             | Raise _ => d
             end).
Proof.
  unfold dual_step, valence.
  destruct (length (link_faces bm v) <? 3) eqn:E; [reflexivity|].
  apply Nat.ltb_ge in E.
  pose proof (@faces_new_no_type_error d (dual_corners bm ftd v)) as Hte.
  rewrite dual_corners_length in Hte. specialize (Hte E).
  destruct (faces_new d (dual_corners bm ftd v)) as [d'|[|]];
    try reflexivity.
  now elim Hte.
Qed.

Lemma dual_step_verts (bm : Mesh) (ftd : list nat) (d d' : Mesh) (v : nat) :
  dual_step bm ftd d v = Ok d' -> verts d' = verts d.
Proof.
  rewrite dual_step_eq. intros [= <-].
  destruct (valence bm v <? 3); [reflexivity|].
  destruct (faces_new d (dual_corners bm ftd v)) as [d''|e] eqn:E;
    [|reflexivity].
  now apply faces_new_ok in E.
Qed.

Lemma dual_loop_total (bm : Mesh) (ftd : list nat) (vs : list nat) (d : Mesh) :
  exists d', dual_loop bm ftd vs d = Ok d' /\ verts d' = verts d.
Proof.
  revert d; induction vs as [|v vs IH]; intros d; simpl.
  - now exists d.
  - destruct (dual_step bm ftd d v) as [d1|e] eqn:E.
    + destruct (IH d1) as (d' & Hd' & Hv). exists d'. split; [exact Hd'|].
      rewrite Hv. eapply dual_step_verts; eauto.
    + rewrite dual_step_eq in E. discriminate.
Qed.

Lemma build_dual_unfold (obj : Mesh) :
  build_dual_from_object triangulate obj
  = dual_loop (triangulate obj) (seq 0 (length (faces (triangulate obj))))
      (seq 0 (length (verts (triangulate obj))))
      (mkBMesh (map (calc_center_median (triangulate obj))
                    (seq 0 (length (faces (triangulate obj))))) [] []).
Proof.
  unfold build_dual_from_object.
  rewrite emit_dual_verts_eq; simpl.
  now rewrite length_seq.
Qed.

(** The dual vertices are the centres of the faces, in the order of the
    faces. *)
Lemma build_dual_verts (obj d : Mesh) :
  build_dual_from_object triangulate obj = Ok d ->
  verts d = map (calc_center_median (triangulate obj))
                (seq 0 (length (faces (triangulate obj)))).
Proof.
  rewrite build_dual_unfold. intros Hd.
  destruct (dual_loop_total (triangulate obj)
              (seq 0 (length (faces (triangulate obj))))
              (seq 0 (length (verts (triangulate obj))))
              (mkBMesh (map (calc_center_median (triangulate obj))
                    (seq 0 (length (faces (triangulate obj))))) [] []))
    as (d' & Hd' & Hv).
  rewrite Hd in Hd'. injection Hd' as <-. exact Hv.
Qed.

(** The dual builder returns a mesh, whatever its input. *)
Lemma build_dual_total (obj : Mesh) :
  exists d, build_dual_from_object triangulate obj = Ok d.
Proof.
  rewrite build_dual_unfold.
  destruct (dual_loop_total (triangulate obj)
              (seq 0 (length (faces (triangulate obj))))
              (seq 0 (length (verts (triangulate obj))))
              (mkBMesh (map (calc_center_median (triangulate obj))
                    (seq 0 (length (faces (triangulate obj))))) [] []))
    as (d' & Hd' & _).
  now exists d'.
Qed.

(** C9: the dual builder raises nothing, whatever the mesh: it returns a
    dual mesh; a vertex of valence below three adds no face and leaves the
    dual as it is; and for a vertex of valence three or more, a face the
    host refuses to create is left out and the loop goes on with the dual
    unchanged. *)
Theorem build_dual_never_raises (obj : Mesh) :
  (exists d, build_dual_from_object triangulate obj = Ok d)
  /\ (forall bm ftd d v, valence bm v < 3 -> dual_step bm ftd d v = Ok d)
  /\ (forall bm ftd d v, 3 <= valence bm v ->
        dual_step bm ftd d v
        = Ok (match faces_new d (dual_corners bm ftd v) with
              | Ok d' => d'
              | Raise _ => d
              end)).
Proof.
  split; [|split].
  - apply build_dual_total.
  - intros bm ftd d v Hv. rewrite dual_step_eq.
    apply Nat.ltb_lt in Hv. now rewrite Hv.
  - intros bm ftd d v Hv. rewrite dual_step_eq.
    apply Nat.ltb_ge in Hv. now rewrite Hv.
Qed.

(** When the host creates the face and when it refuses it. *)
Lemma faces_new_fresh (d : Mesh) (vs : list nat) :
  3 <= length vs -> nodupb vs = true ->
  existsb (same_verts vs) (faces d) = false ->
  faces_new d vs
  = Ok (mkBMesh (verts d) (fold_left add_edge (cyclic_pairs vs) (edges d))
                (faces d ++ [vs])).
Proof.
  intros Hlen Hnd Hex. unfold faces_new.
  destruct (length vs <? 3) eqn:E; [apply Nat.ltb_lt in E; lia|].
  now rewrite Hnd, Hex.
Qed.

Lemma faces_new_existing (d : Mesh) (vs : list nat) :
  3 <= length vs -> nodupb vs = true ->
  existsb (same_verts vs) (faces d) = true ->
  faces_new d vs = Raise ValueError.
Proof.
  intros Hlen Hnd Hex. unfold faces_new.
  destruct (length vs <? 3) eqn:E; [apply Nat.ltb_lt in E; lia|].
  now rewrite Hnd, Hex.
Qed.

(** ** Counting the dual of a closed manifold triangulation *)

Lemma filter_nth_seq_length (A : Type) (P : A -> bool) (d : A) (l : list A)
  (k : nat) :
  length (filter (fun i => P (nth (i - k) l d)) (seq k (length l)))
  = length (filter P l).
Proof.
  revert k; induction l as [|a l IH]; intros k; [reflexivity|].
  cbn [length seq filter].
  assert (Hext : filter (fun i => P (nth (i - k) (a :: l) d)) (seq (S k) (length l))
                 = filter (fun i => P (nth (i - S k) l d)) (seq (S k) (length l))).
  { apply filter_ext_in. intros i Hi. apply in_seq in Hi.
    replace (i - k) with (S (i - S k)) by lia. reflexivity. }
  rewrite Hext, Nat.sub_diag.
  change (nth 0 (a :: l) d) with a.
  destruct (P a); cbn [length]; rewrite IH; reflexivity.
Qed.

Lemma valence_filter (bm : Mesh) (v : nat) :
  valence bm v = length (filter (mem v) (faces bm)).
Proof.
  unfold valence, link_faces, face_at.
  rewrite <- (filter_nth_seq_length _ (mem v) [] (faces bm) 0).
  f_equal. apply filter_ext. intros i. now rewrite Nat.sub_0_r.
Qed.

Lemma mem_In (x : nat) (l : list nat) : mem x l = true <-> In x l.
Proof.
  unfold mem. rewrite existsb_exists. split.
  - intros (y & Hy & Heq). apply Nat.eqb_eq in Heq. now subst.
  - intros Hin. exists x. split; [exact Hin | apply Nat.eqb_refl].
Qed.

Lemma link_faces_In (bm : Mesh) (v f : nat) :
  In f (link_faces bm v)
  <-> f < length (faces bm) /\ mem v (face_at bm f) = true.
Proof.
  unfold link_faces. rewrite filter_In, in_seq. intuition lia.
Qed.

(** If every face around [b] is also a face around [a], then the faces
    shared by [a] and [b] are all the faces around [b]. *)
Lemma shared_faces_of_inclusion (bm : Mesh) (a b : nat) :
  incl (link_faces bm b) (link_faces bm a) ->
  length (shared_faces bm a b) = valence bm b.
Proof.
  intros Hincl. rewrite valence_filter. unfold shared_faces.
  f_equal. apply filter_ext_in. intros fl Hfl.
  destruct (mem b fl) eqn:Eb; [|apply andb_false_r].
  rewrite andb_true_r.
  destruct (In_nth _ _ [] Hfl) as (i & Hi & Hnth).
  assert (Hb : In i (link_faces bm b)).
  { apply link_faces_In. split; [exact Hi|]. unfold face_at. now rewrite Hnth. }
  apply Hincl, link_faces_In in Hb as [_ Ha].
  unfold face_at in Ha. now rewrite Hnth in Ha.
Qed.

Lemma closed_manifold_pair (bm : Mesh) (a b : nat) :
  closed_manifold bm = true ->
  a < length (verts bm) -> b < length (verts bm) -> a <> b ->
  length (shared_faces bm a b) <= 2.
Proof.
  unfold closed_manifold. intros Hm Ha Hb Hab.
  rewrite forallb_forall in Hm.
  assert (Hina : In a (seq 0 (length (verts bm)))) by (apply in_seq; lia).
  specialize (Hm a Hina). rewrite forallb_forall in Hm.
  assert (Hinb : In b (seq 0 (length (verts bm)))) by (apply in_seq; lia).
  specialize (Hm b Hinb).
  apply orb_true_iff in Hm as [Hm|Hm];
    [apply orb_true_iff in Hm as [Hm|Hm]|]; apply Nat.eqb_eq in Hm; lia.
Qed.

Lemma list_eqb_eq (a b : list nat) : list_eqb a b = true -> a = b.
Proof.
  revert b; induction a as [|x a IH]; intros [|y b]; cbn [list_eqb];
    try discriminate; [reflexivity|].
  intros H. apply andb_true_iff in H as [Hx Hab].
  apply Nat.eqb_eq in Hx. subst. f_equal. now apply IH.
Qed.

Lemma rotations_perm (f r : list nat) :
  In r (rotations f) -> Permutation r f.
Proof.
  unfold rotations. intros Hr. apply in_map_iff in Hr as (k & <- & _).
  rewrite <- (firstn_skipn k f) at 3. apply Permutation_app_comm.
Qed.

Lemma same_verts_incl (vs f : list nat) :
  same_verts vs f = true -> incl vs f.
Proof.
  unfold same_verts. intros H.
  apply existsb_exists in H as (r & Hr & H).
  apply rotations_perm in Hr. intros x Hx.
  apply (Permutation_in _ Hr).
  apply orb_true_iff in H as [H|H]; apply list_eqb_eq in H; subst vs.
  - exact Hx.
  - now apply in_rev.
Qed.

(** On a closed manifold, the fans of two distinct vertices never span the
    same face of the dual. *)
Lemma distinct_fans (bm : Mesh) (a b : nat) :
  closed_manifold bm = true ->
  a < length (verts bm) -> b < length (verts bm) -> a <> b ->
  3 <= valence bm b ->
  same_verts (dual_corners bm (seq 0 (length (faces bm))) b)
             (dual_corners bm (seq 0 (length (faces bm))) a) = false.
Proof.
  intros Hm Ha Hb Hab Hval.
  destruct (same_verts _ _) eqn:E; [|reflexivity].
  apply same_verts_incl in E.
  assert (Hincl : incl (link_faces bm b) (link_faces bm a)).
  { intros f Hf.
    eapply Permutation_in; [apply dual_corners_perm|].
    apply E.
    eapply Permutation_in; [apply Permutation_sym, dual_corners_perm|exact Hf]. }
  apply shared_faces_of_inclusion in Hincl.
  pose proof (@closed_manifold_pair bm a b Hm Ha Hb Hab). lia.
Qed.

Lemma nodupb_NoDup (l : list nat) : NoDup l -> nodupb l = true.
Proof.
  induction 1 as [|x l Hx Hnd IH]; simpl; [reflexivity|].
  rewrite IH, andb_true_r.
  destruct (mem x l) eqn:E; [|reflexivity].
  apply mem_In in E. contradiction.
Qed.

(** The second loop on a closed manifold: every vertex of valence three or
    more gets its face. *)
Lemma dual_loop_faces (bm : Mesh) :
  closed_manifold bm = true ->
  forall (vs pre : list nat) (d : Mesh),
    NoDup (pre ++ vs) ->
    (forall v, In v (pre ++ vs) -> v < length (verts bm)) ->
    faces d = map (dual_corners bm (seq 0 (length (faces bm))))
                  (fan_vertices bm pre) ->
    exists d',
      dual_loop bm (seq 0 (length (faces bm))) vs d = Ok d'
      /\ faces d' = map (dual_corners bm (seq 0 (length (faces bm))))
                        (fan_vertices bm (pre ++ vs)).
Proof.
  intros Hm. induction vs as [|v vs IH]; intros pre d Hnd Hlt Hfaces; simpl.
  - exists d. now rewrite app_nil_r.
  - rewrite dual_step_eq.
    replace (pre ++ v :: vs) with ((pre ++ [v]) ++ vs) in *
      by (now rewrite <- app_assoc).
    destruct (valence bm v <? 3) eqn:Ev.
    + apply IH; auto.
      unfold fan_vertices. rewrite filter_app; cbn [filter].
      apply Nat.ltb_lt in Ev.
      destruct (3 <=? valence bm v) eqn:E3; [apply Nat.leb_le in E3; lia|].
      now rewrite app_nil_r.
    + apply Nat.ltb_ge in Ev.
      assert (Hnew : faces_new d (dual_corners bm (seq 0 (length (faces bm))) v)
                     = Ok (mkBMesh (verts d)
                             (fold_left add_edge
                                (cyclic_pairs (dual_corners bm (seq 0 (length (faces bm))) v))
                                (edges d))
                             (faces d ++ [dual_corners bm (seq 0 (length (faces bm))) v]))).
      { apply faces_new_fresh.
        - now rewrite dual_corners_length.
        - apply nodupb_NoDup.
          eapply Permutation_NoDup;
            [apply Permutation_sym, dual_corners_perm | apply link_faces_NoDup].
        - destruct (existsb _ (faces d)) eqn:Ex; [|reflexivity].
          apply existsb_exists in Ex as (fc & Hfc & Hsame).
          rewrite Hfaces in Hfc. apply in_map_iff in Hfc as (a & <- & Ha).
          apply filter_In in Ha as [Ha _].
          rewrite distinct_fans in Hsame; [discriminate|exact Hm| | | |exact Ev].
          + apply Hlt. apply in_or_app; left. apply in_or_app; now left.
          + apply Hlt. apply in_or_app; left. apply in_or_app; right. now left.
          + intros ->. rewrite <- app_assoc in Hnd. simpl in Hnd.
            apply NoDup_remove_2 in Hnd. apply Hnd. apply in_or_app; now left. }
      rewrite Hnew. apply IH; auto; simpl.
      unfold fan_vertices. rewrite filter_app, map_app; cbn [filter].
      destruct (3 <=? valence bm v) eqn:E3; [|apply Nat.leb_gt in E3; lia].
      cbn [map faces]. now rewrite Hfaces.
Qed.

(** Every face of the dual that the second loop adds is the sorted fan of
    a vertex of valence three or more. *)
Lemma dual_loop_face_origin (bm : Mesh) (ftd : list nat) (vs : list nat)
  (d d' : Mesh) :
  dual_loop bm ftd vs d = Ok d' ->
  forall fc, In fc (faces d') ->
    In fc (faces d)
    \/ exists v, In v vs /\ 3 <= valence bm v /\ fc = dual_corners bm ftd v.
Proof.
  revert d; induction vs as [|v vs IH]; intros d; cbn [dual_loop].
  - intros [= <-] fc Hfc. now left.
  - rewrite dual_step_eq. intros Hloop fc Hfc.
    destruct (IH _ Hloop fc Hfc) as [Hin|(w & Hw & Hval & ->)].
    + destruct (valence bm v <? 3) eqn:Ev; [now left|].
      apply Nat.ltb_ge in Ev.
      destruct (faces_new d (dual_corners bm ftd v)) as [d1|e] eqn:En;
        [|now left].
      apply faces_new_ok in En as [_ En]. rewrite En in Hin.
      apply in_app_or in Hin as [Hin|[<-|[]]]; [now left|].
      right. exists v. repeat split; [now left|exact Ev].
    + right. exists w. repeat split; [now right|exact Hval].
Qed.

Lemma build_dual_face_origin (obj d : Mesh) :
  build_dual_from_object triangulate obj = Ok d ->
  forall fc, In fc (faces d) ->
    exists v, 3 <= valence (triangulate obj) v
      /\ fc = dual_corners (triangulate obj)
                (seq 0 (length (faces (triangulate obj)))) v.
Proof.
  rewrite build_dual_unfold. intros Hd fc Hfc.
  destruct (dual_loop_face_origin _ _ _ _ _ Hd fc Hfc)
    as [[]|(v & _ & Hval & ->)].
  now exists v.
Qed.

Hypothesis triangulate_triangles :
  forall m : Mesh, all_triangles m = true -> triangulate m = m.

(** C2: on a closed, manifold, triangulated mesh the dual builder returns a
    dual with one vertex per face of the input and one face per input vertex
    of valence three or more. *)
Theorem dual_counts (obj : Mesh) :
  all_triangles obj = true ->
  closed_manifold obj = true ->
  exists d,
    build_dual_from_object triangulate obj = Ok d
    /\ length (verts d) = length (faces obj)
    /\ length (faces d)
       = length (filter (fun v => 3 <=? valence obj v)
                        (seq 0 (length (verts obj)))).
Proof.
  intros Htri Hm.
  destruct (@dual_loop_faces obj Hm (seq 0 (length (verts obj))) []
              (mkBMesh (map (calc_center_median obj)
                            (seq 0 (length (faces obj)))) [] []))
    as (d & Hd & Hf); simpl.
  - apply seq_NoDup.
  - intros v Hv. apply in_seq in Hv. lia.
  - reflexivity.
  - exists d.
    assert (Hb : build_dual_from_object triangulate obj = Ok d).
    { rewrite build_dual_unfold, (triangulate_triangles _ Htri). exact Hd. }
    split; [exact Hb|]. split.
    + rewrite (@build_dual_verts obj d Hb), (triangulate_triangles _ Htri).
      now rewrite length_map, length_seq.
    + rewrite Hf; simpl. now rewrite length_map.
Qed.

End DualStructure.

(* ------------------------------------------------------------------ *)
(** * Results over the real numbers *)

(** Unfold the vector operations down to the operations of [R]. *)
Ltac unfold_vec :=
  unfold apply_offset, tangential, vlerp, vlength, vdot, vadd, vsub, vmuls,
    smulv, vdivs, vcross, vzero, f_of_nat, f0, f1, f2, lit_0_9, lit_1e_9,
    lit_0_2, lit_1e_35 in *;
  cbn [fadd fsub fmul fdiv fabs fsqrt fcos fsin fatan2 fpi fltb feqb f_of_Z
       RScalar vx vy vz] in *.

Section RealVectors.

Local Open Scope R_scope.

Local Abbreviation RVec := (Vector R).

Lemma Reqb_true (a b : R) : Reqb a b = true <-> a = b.
Proof. unfold Reqb. destruct (Req_dec_T a b); split; congruence. Qed.

Lemma Reqb_false (a b : R) : Reqb a b = false <-> a <> b.
Proof. unfold Reqb. destruct (Req_dec_T a b); split; congruence. Qed.

Lemma Rltb_true (a b : R) : Rltb a b = true <-> a < b.
Proof. unfold Rltb. destruct (Rlt_dec a b); split; congruence. Qed.

Lemma Rltb_false (a b : R) : Rltb a b = false <-> b <= a.
Proof.
  unfold Rltb. destruct (Rlt_dec a b); split; try congruence; lra.
Qed.

Lemma vdot_self_nonneg (p : RVec) : 0 <= vdot p p.
Proof. destruct p as [x y z]. unfold_vec. nra. Qed.

Lemma vlength_sqr (p : RVec) : vlength p * vlength p = vdot p p.
Proof. unfold vlength. cbn [fsqrt RScalar]. apply sqrt_sqrt, vdot_self_nonneg. Qed.

(** A vector of length zero is the zero vector. *)
Lemma vlength_zero (p : RVec) : vlength p = 0 -> p = vzero.
Proof.
  intros H0. pose proof (vlength_sqr p) as Hs. rewrite H0 in Hs.
  destruct p as [x y z]. unfold_vec.
  assert (x = 0 /\ y = 0 /\ z = 0) as (-> & -> & ->) by (repeat split; nra).
  reflexivity.
Qed.

Lemma normalized_above (p : RVec) :
  normalizable p -> normalized p = vdivs p (vlength p).
Proof.
  intros Hp. unfold normalized, lit_1e_35. cbn [fltb fdiv f_of_Z RScalar].
  apply Rltb_true in Hp. now rewrite Hp.
Qed.

Lemma normalized_below (p : RVec) :
  vdot p p <= 1 / 100000000000000000000000000000000000 ->
  normalized p = vzero.
Proof.
  intros Hp. unfold normalized, lit_1e_35. cbn [fltb fdiv f_of_Z RScalar].
  apply Rltb_false in Hp. now rewrite Hp.
Qed.

Lemma normalized_zero (p : RVec) : vlength p = 0 -> normalized p = vzero.
Proof.
  intros H0. apply normalized_below.
  rewrite <- vlength_sqr, H0. lra.
Qed.

Lemma normalizable_length (p : RVec) : normalizable p -> vlength p <> 0.
Proof.
  unfold normalizable. intros Hp H0.
  pose proof (vlength_sqr p) as Hs. rewrite H0 in Hs. lra.
Qed.

(** The normalized form of a vector above the cutoff is a unit vector. *)
Lemma normalized_unit (p : RVec) :
  normalizable p -> vdot (normalized p) (normalized p) = 1.
Proof.
  intros Hp. rewrite (normalized_above _ Hp).
  pose proof (normalizable_length _ Hp) as H0.
  pose proof (vlength_sqr p) as Hs.
  set (L := vlength p) in *. clearbody L.
  destruct p as [x y z]. unfold_vec.
  replace (x / L * (x / L) + y / L * (y / L) + z / L * (z / L))
    with ((x * x + y * y + z * z) / (L * L)) by (field; exact H0).
  rewrite <- Hs. field. exact H0.
Qed.

(** The normalized form of any vector is the zero vector or a unit vector. *)
Lemma normalized_cases (p : RVec) :
  normalized p = vzero \/ vdot (normalized p) (normalized p) = 1.
Proof.
  destruct (Rlt_dec (1 / 100000000000000000000000000000000000) (vdot p p))
    as [Hp|Hp].
  - right. apply normalized_unit, Hp.
  - left. apply normalized_below. lra.
Qed.

Lemma project_zero_length (p : RVec) (radius : R) :
  vlength p = 0 -> project_to_radius p radius = mkVector radius 0 0.
Proof.
  intros H0. unfold project_to_radius. cbn [feqb RScalar]. unfold f0.
  cbn [f_of_Z RScalar]. apply Reqb_true in H0. now rewrite H0.
Qed.

Lemma project_nonzero_length (p : RVec) (radius : R) :
  vlength p <> 0 -> project_to_radius p radius = vmuls (normalized p) radius.
Proof.
  intros H0. unfold project_to_radius. cbn [feqb RScalar]. unfold f0.
  cbn [f_of_Z RScalar]. apply Reqb_false in H0. now rewrite H0.
Qed.

(** The projection of the zero vector, or of a vector above the cutoff,
    lies at distance [|radius|] from the origin. *)
Lemma vlength_project (p : RVec) (radius : R) :
  vlength p = 0 \/ normalizable p ->
  vlength (project_to_radius p radius) = Rabs radius.
Proof.
  intros [H0|Hp].
  - rewrite (project_zero_length _ radius H0). unfold_vec.
    replace (radius * radius + 0 * 0 + 0 * 0) with (Rsqr radius)
      by (unfold Rsqr; ring).
    apply sqrt_Rsqr_abs.
  - rewrite (project_nonzero_length _ radius (normalizable_length _ Hp)).
    pose proof (normalized_unit _ Hp) as Hu.
    destruct (normalized p) as [a b c]. unfold_vec.
    replace (a * radius * (a * radius) + b * radius * (b * radius)
             + c * radius * (c * radius))
      with (Rsqr radius * (a * a + b * b + c * c)) by (unfold Rsqr; ring).
    rewrite Hu, Rmult_1_r. apply sqrt_Rsqr_abs.
Qed.

(** A point at distance [radius] from the origin, at the origin or above
    the cutoff, is its own projection. *)
Lemma project_on_sphere (p : RVec) (radius : R) :
  vlength p = radius -> vlength p = 0 \/ normalizable p ->
  project_to_radius p radius = p.
Proof.
  intros Hr [H0|Hp].
  - rewrite (project_zero_length _ radius H0).
    rewrite (vlength_zero _ H0), <- Hr, H0. reflexivity.
  - pose proof (normalizable_length _ Hp) as H0.
    rewrite (project_nonzero_length _ radius H0), (normalized_above _ Hp).
    subst radius. set (L := vlength p) in *. clearbody L.
    destruct p as [x y z]. unfold_vec. f_equal; field; exact H0.
Qed.

(** The offset added to a position has no component along the normal. *)
Lemma tangential_orthogonal (co off : RVec) :
  vdot (tangential co off) (normalized co) = 0.
Proof.
  unfold tangential.
  destruct (normalized_cases co) as [Hz|Hu].
  - rewrite Hz. destruct off as [ox oy oz]. unfold_vec. ring.
  - destruct (normalized co) as [a b c], off as [ox oy oz]. unfold_vec.
    replace ((ox - a * (ox * a + oy * b + oz * c)) * a
             + (oy - b * (ox * a + oy * b + oz * c)) * b
             + (oz - c * (ox * a + oy * b + oz * c)) * c)
      with ((ox * a + oy * b + oz * c) * (1 - (a * a + b * b + c * c)))
      by ring.
    rewrite Hu. ring.
Qed.

End RealVectors.

Section RealJitter.

Local Open Scope R_scope.

Context {RG : Rng R}.

Local Abbreviation RVec := (Vector R).
Local Abbreviation RMesh := (BMesh R).

Lemma nth_map_seq (A : Type) (f : nat -> A) (d : A) (n u : nat) :
  (u < n)%nat -> nth u (map f (seq 0 n)) d = f u.
Proof.
  intros Hu.
  rewrite (nth_indep _ d (f 0%nat)) by (now rewrite length_map, length_seq).
  rewrite (map_nth f (seq 0 n) 0%nat u), seq_nth by exact Hu. reflexivity.
Qed.

Lemma map_nth_all (A B : Type) (h : A -> B) (d : A) (l : list A) :
  map (fun v => h (nth v l d)) (seq 0 (length l)) = map h l.
Proof.
  induction l as [|a l IH]; [reflexivity|].
  cbn [length seq map]. rewrite <- seq_shift, map_map. cbn [nth].
  now rewrite IH.
Qed.

Lemma fst_jitter_offsets (g : RngState) (m : RMesh) (strength : R)
  (iters : Z) (lam : R) (seed : Z) :
  fst (jitter_offsets g m strength iters lam seed)
  = smooth_loop (smooth_count iters) m lam
      (fst (initial_offsets strength (verts m) (random_seed seed g))).
Proof.
  unfold jitter_offsets.
  destruct (initial_offsets strength (verts m) (random_seed seed g));
    reflexivity.
Qed.

(** ** Strength zero *)

Lemma initial_offset_zero (co : RVec) (g : RngState) :
  fst (initial_offset 0 co g) = vzero.
Proof.
  unfold initial_offset, uniform.
  destruct (tangent_basis (normalized co)) as [t b].
  destruct (rng_random g) as [r1 g1].
  destruct (rng_random g1) as [r2 g2]. cbn [fst].
  destruct (normalized _) as [x y z]. unfold_vec. f_equal; ring.
Qed.

Lemma initial_offsets_zero (vs : list RVec) (g : RngState) :
  zero_field (fst (initial_offsets 0 vs g)).
Proof.
  revert g; induction vs as [|co vs IH]; intros g u; cbn [initial_offsets].
  - destruct u; reflexivity.
  - pose proof (initial_offset_zero co g) as Ho.
    destruct (initial_offset 0 co g) as [o g1]. cbn [fst] in Ho. subst o.
    specialize (IH g1).
    destruct (initial_offsets 0 vs g1) as [os g2]. cbn [fst] in *.
    destruct u as [|u]; [reflexivity|]. apply (IH u).
Qed.

Lemma accumulate_zero (offsets : list RVec) (us : list nat) :
  zero_field offsets -> accumulate offsets us = (vzero, length us).
Proof.
  intros Hz. unfold accumulate.
  assert (Hgen : forall k,
    fold_left (fun st u => (vadd (fst st) (offset_at offsets u), S (snd st)))
      us (vzero, k) = (vzero, (k + length us)%nat)).
  { induction us as [|u us IH]; intros k; cbn [fold_left length fst snd].
    - now rewrite Nat.add_0_r.
    - rewrite Hz.
      replace (vadd vzero vzero) with (vzero : RVec)
        by (unfold_vec; f_equal; ring).
      rewrite IH. f_equal. lia. }
  apply (Hgen 0%nat).
Qed.

Lemma smooth_vertex_zero (m : RMesh) (lam : R) (offsets : list RVec) (v : nat) :
  zero_field offsets -> smooth_vertex m lam offsets v = vzero.
Proof.
  intros Hz. unfold smooth_vertex. rewrite (accumulate_zero _ _ Hz), Hz.
  destruct (0 <? length (nbrs m v))%nat; [|reflexivity].
  unfold_vec. unfold Rdiv. f_equal; ring.
Qed.

Lemma smooth_pass_zero (m : RMesh) (lam : R) (offsets : list RVec) :
  zero_field offsets -> zero_field (smooth_pass m lam offsets).
Proof.
  intros Hz u. unfold smooth_pass, offset_at.
  destruct (Nat.lt_ge_cases u (length (verts m))) as [Hu|Hu].
  - rewrite nth_map_seq by exact Hu. now apply smooth_vertex_zero.
  - apply nth_overflow. now rewrite length_map, length_seq.
Qed.

Lemma smooth_loop_zero (k : nat) (m : RMesh) (lam : R) (offsets : list RVec) :
  zero_field offsets -> zero_field (smooth_loop k m lam offsets).
Proof.
  revert offsets; induction k as [|k IH]; intros offsets Hz; cbn [smooth_loop].
  - exact Hz.
  - apply IH, smooth_pass_zero, Hz.
Qed.

Lemma apply_offset_zero (radius : R) (co : RVec) :
  apply_offset radius co vzero = project_to_radius co radius.
Proof.
  unfold apply_offset. f_equal. unfold tangential.
  destruct (normalized co) as [a b c], co as [x y z].
  unfold_vec. f_equal; ring.
Qed.

(** With strength zero the pass projects every vertex onto the sphere and
    does nothing else. *)
Lemma jitter_zero_strength_verts (g : RngState) (m : RMesh) (radius : R)
  (iters : Z) (lam : R) (seed : Z) :
  verts (fst (organic_jitter_dual_on_sphere g m radius 0 iters lam seed))
  = map (fun p => project_to_radius p radius) (verts m).
Proof.
  rewrite jitter_verts, fst_jitter_offsets.
  rewrite <- (map_nth_all _ _ (fun p => project_to_radius p radius) vzero (verts m)).
  apply map_ext. intros v.
  rewrite (smooth_loop_zero _ m lam _ (initial_offsets_zero (verts m) _) v).
  apply apply_offset_zero.
Qed.


(** ** Tangentiality *)

(** C7: the positions written back are the projections of position plus
    offset, where the offset added to each vertex is orthogonal to the
    normal of the vertex, its normalized position. *)
Theorem jitter_offset_tangential (g : RngState) (m : RMesh)
  (radius strength : R) (iters : Z) (lam : R) (seed : Z) :
  let offsets := fst (jitter_offsets g m strength iters lam seed) in
  let added := fun v => tangential (vert_co m v) (offset_at offsets v) in
  verts (fst (organic_jitter_dual_on_sphere g m radius strength iters lam seed))
  = map (fun v => project_to_radius (vadd (vert_co m v) (added v)) radius)
        (seq 0 (length (verts m)))
  /\ forall v, vdot (added v) (normalized (vert_co m v)) = 0.
Proof.
  intros offsets added. split.
  - rewrite jitter_verts. reflexivity.
  - intros v. apply tangential_orthogonal.
Qed.

(** ** One smoothing pass with lambda one *)

Lemma accumulate_eq (offsets : list RVec) (us : list nat) :
  accumulate offsets us
  = (fold_left vadd (map (offset_at offsets) us) vzero, length us).
Proof.
  unfold accumulate.
  assert (Hgen : forall acc k,
    fold_left (fun st u => (vadd (fst st) (offset_at offsets u), S (snd st)))
      us (acc, k)
    = (fold_left vadd (map (offset_at offsets) us) acc, (k + length us)%nat)).
  { induction us as [|u us IH]; intros acc k; cbn [fold_left map length fst snd].
    - now rewrite Nat.add_0_r.
    - rewrite IH. f_equal. lia. }
  apply (Hgen vzero 0%nat).
Qed.

Lemma fold_vadd_coords (l : list RVec) (acc : RVec) :
  fold_left vadd l acc
  = mkVector (vx acc + fold_right Rplus 0 (map (@vx R) l))
             (vy acc + fold_right Rplus 0 (map (@vy R) l))
             (vz acc + fold_right Rplus 0 (map (@vz R) l)).
Proof.
  revert acc; induction l as [|q l IH]; intros acc;
    cbn [fold_left fold_right map].
  - destruct acc as [x y z]. cbn [vx vy vz]. f_equal; ring.
  - rewrite IH. unfold_vec. f_equal; ring.
Qed.

(** The running sum divided by the count is the mean. *)
Lemma sum_over_count_mean (l : list RVec) :
  vdivs (fold_left vadd l vzero) (f_of_nat (length l)) = mean_of l.
Proof.
  rewrite fold_vadd_coords. unfold mean_of. unfold_vec.
  rewrite <- INR_IZR_INZ. unfold Rdiv. f_equal; ring.
Qed.

Lemma vlerp_one (a b : RVec) : vlerp a b 1 = b.
Proof. destruct a, b. unfold_vec. f_equal; ring. Qed.

(** C6: with lambda one, one smoothing pass gives every vertex the mean of
    the offsets its neighbours had before the pass, and leaves the offset of
    a vertex without neighbours as it was. *)
Theorem smooth_pass_lambda_one (m : RMesh) (offsets : list RVec) (v : nat) :
  (v < length (verts m))%nat ->
  offset_at (smooth_pass m 1 offsets) v
  = match nbrs m v with
    | [] => offset_at offsets v
    | _ :: _ => mean_of (map (offset_at offsets) (nbrs m v))
    end.
Proof.
  intros Hv. unfold offset_at at 1, smooth_pass.
  rewrite nth_map_seq by exact Hv.
  unfold smooth_vertex. rewrite accumulate_eq.
  destruct (nbrs m v) as [|u us] eqn:E; [reflexivity|].
  replace (0 <? length (u :: us))%nat with true by reflexivity.
  rewrite vlerp_one.
  rewrite <- (length_map (offset_at offsets) (u :: us)).
  apply sum_over_count_mean.
Qed.

End RealJitter.

Section RealDual.

Local Open Scope R_scope.

Local Abbreviation RVec := (Vector R).
Local Abbreviation RMesh := (BMesh R).

(** ** The order of the corners of a dual face *)

Lemma insert_by_key_hd (y x : R * nat) (l : list (R * nat)) :
  fst y < fst x -> HdRel key_le y l -> HdRel key_le y (insert_by_key x l).
Proof.
  intros Hyx Hhd. destruct l as [|z l]; cbn [insert_by_key].
  - constructor. unfold key_le. lra.
  - cbn [fltb RScalar]. destruct (Rltb (fst z) (fst x)).
    + constructor. now inversion Hhd.
    + constructor. unfold key_le. lra.
Qed.

Lemma insert_by_key_sorted (x : R * nat) (l : list (R * nat)) :
  Sorted key_le l -> Sorted key_le (insert_by_key x l).
Proof.
  induction 1 as [|y l Hs IH Hhd]; cbn [insert_by_key].
  - repeat constructor.
  - cbn [fltb RScalar]. destruct (Rltb (fst y) (fst x)) eqn:E.
    + apply Rltb_true in E. constructor; [exact IH|].
      now apply insert_by_key_hd.
    + apply Rltb_false in E. constructor; [now constructor|].
      constructor. exact E.
Qed.

Lemma sort_by_key_sorted (l : list (R * nat)) : Sorted key_le (sort_by_key l).
Proof.
  induction l as [|x l IH]; cbn [sort_by_key fold_right]; [constructor|].
  apply insert_by_key_sorted, IH.
Qed.

Lemma key_le_trans : Relations_1.Transitive key_le.
Proof. intros x y z Hxy Hyz. unfold key_le in *. lra. Qed.

(** The key the script sorts by is the guarded angle. *)
Lemma items_of_guarded (bm : RMesh) (v : nat) (linked : list nat) :
  items_of bm v linked = map (fun f => (guarded_angle bm v f, f)) linked.
Proof.
  unfold items_of, guarded_angle, signed_angle.
  destruct (tangent_basis (normalized (vert_co bm v))) as [t b].
  apply map_ext. intros f. f_equal.
  unfold face_angle. unfold lit_1e_9, f0.
  cbn [fltb fdiv f_of_Z fatan2 RScalar]. unfold Rltb.
  destruct (Rlt_dec _ _); reflexivity.
Qed.

Lemma sorted_keys_faces (key : nat -> R) (l : list (R * nat)) :
  StronglySorted key_le l ->
  (forall it, In it l -> fst it = key (snd it)) ->
  StronglySorted (fun f g => key f <= key g) (map snd l).
Proof.
  induction 1 as [|x l Hs IH Hall]; intros Hkey; cbn [map]; constructor.
  - apply IH. intros it Hit. apply Hkey. now right.
  - rewrite Forall_forall in *. intros g Hg.
    apply in_map_iff in Hg as (it & <- & Hit).
    specialize (Hall it Hit). unfold key_le in Hall.
    rewrite <- (Hkey x (or_introl eq_refl)), <- (Hkey it (or_intror Hit)).
    exact Hall.
Qed.

(** The corners of the dual face of [v] are the faces around [v], in
    ascending order of the guarded angle. *)
Lemma dual_corners_ascending (bm : RMesh) (v : nat) :
  StronglySorted (fun f g => guarded_angle bm v f <= guarded_angle bm v g)
    (dual_corners bm (seq 0 (length (faces bm))) v).
Proof.
  rewrite dual_corners_sorted_faces.
  apply sorted_keys_faces.
  - apply Sorted_StronglySorted; [exact key_le_trans|].
    apply sort_by_key_sorted.
  - intros it Hit.
    apply (Permutation_in _ (sort_by_key_perm _)) in Hit.
    rewrite items_of_guarded in Hit.
    apply in_map_iff in Hit as (f & <- & _). reflexivity.
Qed.

(** C3, as amended: every face of the dual is the fan of an original vertex
    of valence three or more, and the fan of a vertex lists the dual
    vertices of its incident faces in ascending order of the angle
    [atan2(dot(dir, b), dot(dir, t))], where a face whose projected
    direction is shorter than [1e-9] takes the angle [0]. *)
Theorem dual_face_sorted_by_angle (triangulate : RMesh -> RMesh)
  (obj d : RMesh) :
  build_dual_from_object triangulate obj = Ok d ->
  let bm := triangulate obj in
  let corners := dual_corners bm (seq 0 (length (faces bm))) in
  (forall fc, In fc (faces d) ->
     exists v, (3 <= valence bm v)%nat /\ fc = corners v)
  /\ (forall v,
        Permutation (corners v) (link_faces bm v)
        /\ StronglySorted
             (fun f g => guarded_angle bm v f <= guarded_angle bm v g)
             (corners v)).
Proof.
  intros Hd bm corners. split.
  - intros fc Hfc. apply (build_dual_face_origin triangulate obj d Hd fc Hfc).
  - intros v. split.
    + apply dual_corners_perm.
    + apply dual_corners_ascending.
Qed.

End RealDual.

(* ------------------------------------------------------------------ *)
(** * The sample meshes *)

(** Equalities of concrete vectors and of concrete scalars. *)
Ltac vec_eq := unfold rvec; unfold_vec; f_equal; lra.
Ltac sc_eq := unfold rvec; unfold_vec; lra.

Section Samples.

Local Open Scope R_scope.


Lemma vlength_eq (p : Vector R) (L : R) :
  0 <= L -> vdot p p = L * L -> vlength p = L.
Proof.
  intros HL Hd. unfold vlength. cbn [fsqrt RScalar]. rewrite Hd.
  now apply sqrt_square.
Qed.

Lemma normalized_eq (p q : Vector R) (L : R) :
  0 < L -> 1 / 100000000000000000000000000000000000 < L * L ->
  vdot p p = L * L -> vdivs p L = q -> normalized p = q.
Proof.
  intros HL Hcut Hd <-.
  assert (Hlen : vlength p = L) by (apply vlength_eq; [lra|exact Hd]).
  rewrite normalized_above; [now rewrite Hlen|].
  unfold normalizable. now rewrite Hd.
Qed.




Lemma Rabs_lt_false (x c : R) : c <= x -> Rltb (Rabs x) c = false.
Proof.
  intros H. apply Rltb_false. pose proof (Rle_abs x). lra.
Qed.

Lemma tangent_basis_x : tangent_basis (rvec 1 0 0) = (rvec 0 0 1, rvec 0 (-1) 0).
Proof.
  unfold tangent_basis.
  assert (Hn : normalized (rvec 1 0 0) = rvec 1 0 0).
  { apply (normalized_eq _ _ 1); [lra|lra|sc_eq|vec_eq]. }
  rewrite Hn.
  replace (fltb (fabs (vx (rvec 1 0 0))) lit_0_9) with false
    by (symmetry; apply Rabs_lt_false; sc_eq).
  assert (Ht : normalized (vcross (rvec 1 0 0) (mkVector f0 f1 f0 : Vector R)) = rvec 0 0 1).
  { apply (normalized_eq _ _ 1); [lra|lra|sc_eq|vec_eq]. }
  rewrite Ht.
  assert (Hb : normalized (vcross (rvec 1 0 0) (rvec 0 0 1)) = rvec 0 (-1) 0).
  { apply (normalized_eq _ _ 1); [lra|lra|sc_eq|vec_eq]. }
  rewrite Hb. reflexivity.
Qed.

Lemma Ratan2_neg_x_axis (x : R) : x < 0 -> Ratan2 0 x = PI.
Proof.
  intros Hx. unfold Ratan2.
  destruct (Rlt_dec 0 x); [lra|].
  destruct (Rlt_dec x 0); [|lra].
  destruct (Rle_dec 0 0); [|lra].
  replace (0 / x) with 0 by (unfold Rdiv; ring).
  rewrite atan_0. ring.
Qed.

Lemma Ratan2_pos_y_axis (y : R) : 0 < y -> Ratan2 y 0 = PI / 2.
Proof.
  intros Hy. unfold Ratan2.
  destruct (Rlt_dec 0 0); [lra|].
  destruct (Rlt_dec 0 y); [reflexivity|lra].
Qed.

Lemma Ratan2_neg_y_axis (y : R) : y < 0 -> Ratan2 y 0 = - (PI / 2).
Proof.
  intros Hy. unfold Ratan2.
  destruct (Rlt_dec 0 0); [lra|].
  destruct (Rlt_dec 0 y); [lra|].
  destruct (Rlt_dec y 0); [reflexivity|lra].
Qed.

(** The projected direction from vertex [v] to the centre of face [f]. *)
Lemma signed_angle_at (bm : BMesh R) (v f : nat) (co n t b c d dir : Vector R) :
  vert_co bm v = co -> normalized co = n -> tangent_basis n = (t, b) ->
  calc_center_median bm f = c ->
  vsub (vsub c co) (vmuls n (vdot (vsub c co) n)) = d ->
  normalized d = dir ->
  signed_angle bm v f = Ratan2 (vdot dir b) (vdot dir t).
Proof.
  intros <- <- Hb <- <- <-. unfold signed_angle. rewrite Hb. reflexivity.
Qed.

Lemma guarded_angle_at (bm : BMesh R) (v f : nat) (co n c d : Vector R) :
  vert_co bm v = co -> normalized co = n ->
  calc_center_median bm f = c ->
  vsub (vsub c co) (vmuls n (vdot (vsub c co) n)) = d ->
  guarded_angle bm v f
  = if Rlt_dec (vlength d) (1 / 1000000000) then 0 else signed_angle bm v f.
Proof.
  intros <- <- <- <-. reflexivity.
Qed.

Lemma normalized_x : normalized (rvec 1 0 0) = rvec 1 0 0.
Proof. apply (normalized_eq _ _ 1); [lra|lra|sc_eq|vec_eq]. Qed.

Lemma skew_centre_0 : calc_center_median skew_fan 0 = rvec 2 0 (- (1 / 2000000000)).
Proof.
  unfold calc_center_median, face_at, skew_fan, vert_co.
  cbn [faces verts nth map fold_left length].
  unfold f_of_nat. change (Z.of_nat 3) with 3%Z. vec_eq.
Qed.

Lemma skew_centre_1 : calc_center_median skew_fan 1 = rvec 3 (-1) 0.
Proof.
  unfold calc_center_median, face_at, skew_fan, vert_co.
  cbn [faces verts nth map fold_left length].
  unfold f_of_nat. change (Z.of_nat 3) with 3%Z. vec_eq.
Qed.

Lemma skew_centre_2 : calc_center_median skew_fan 2 = rvec 4 1 0.
Proof.
  unfold calc_center_median, face_at, skew_fan, vert_co.
  cbn [faces verts nth map fold_left length].
  unfold f_of_nat. change (Z.of_nat 3) with 3%Z. vec_eq.
Qed.

Lemma skew_signed_0 : signed_angle skew_fan 0 0 = PI.
Proof.
  rewrite (signed_angle_at skew_fan 0 0 (rvec 1 0 0) (rvec 1 0 0)
             (rvec 0 0 1) (rvec 0 (-1) 0) (rvec 2 0 (- (1 / 2000000000)))
             (rvec 0 0 (- (1 / 2000000000))) (rvec 0 0 (-1))).
  - replace (vdot (rvec 0 0 (-1)) (rvec 0 (-1) 0)) with 0 by sc_eq.
    replace (vdot (rvec 0 0 (-1)) (rvec 0 0 1)) with (-1) by sc_eq.
    apply Ratan2_neg_x_axis. lra.
  - reflexivity.
  - apply normalized_x.
  - apply tangent_basis_x.
  - apply skew_centre_0.
  - vec_eq.
  - apply (normalized_eq _ _ (1 / 2000000000)); [lra|lra|sc_eq|vec_eq].
Qed.

Lemma skew_signed_1 : signed_angle skew_fan 0 1 = PI / 2.
Proof.
  rewrite (signed_angle_at skew_fan 0 1 (rvec 1 0 0) (rvec 1 0 0)
             (rvec 0 0 1) (rvec 0 (-1) 0) (rvec 3 (-1) 0)
             (rvec 0 (-1) 0) (rvec 0 (-1) 0)).
  - replace (vdot (rvec 0 (-1) 0) (rvec 0 (-1) 0)) with 1 by sc_eq.
    replace (vdot (rvec 0 (-1) 0) (rvec 0 0 1)) with 0 by sc_eq.
    apply Ratan2_pos_y_axis. lra.
  - reflexivity.
  - apply normalized_x.
  - apply tangent_basis_x.
  - apply skew_centre_1.
  - vec_eq.
  - apply (normalized_eq _ _ 1); [lra|lra|sc_eq|vec_eq].
Qed.

Lemma skew_signed_2 : signed_angle skew_fan 0 2 = - (PI / 2).
Proof.
  rewrite (signed_angle_at skew_fan 0 2 (rvec 1 0 0) (rvec 1 0 0)
             (rvec 0 0 1) (rvec 0 (-1) 0) (rvec 4 1 0)
             (rvec 0 1 0) (rvec 0 1 0)).
  - replace (vdot (rvec 0 1 0) (rvec 0 (-1) 0)) with (-1) by sc_eq.
    replace (vdot (rvec 0 1 0) (rvec 0 0 1)) with 0 by sc_eq.
    apply Ratan2_neg_y_axis. lra.
  - reflexivity.
  - apply normalized_x.
  - apply tangent_basis_x.
  - apply skew_centre_2.
  - vec_eq.
  - apply (normalized_eq _ _ 1); [lra|lra|sc_eq|vec_eq].
Qed.

Lemma skew_guarded_0 : guarded_angle skew_fan 0 0 = 0.
Proof.
  rewrite (guarded_angle_at skew_fan 0 0 (rvec 1 0 0) (rvec 1 0 0)
             (rvec 2 0 (- (1 / 2000000000))) (rvec 0 0 (- (1 / 2000000000))));
    [|reflexivity|apply normalized_x|apply skew_centre_0|vec_eq].
  rewrite (vlength_eq _ (1 / 2000000000)); [|lra|sc_eq].
  destruct (Rlt_dec _ _); [reflexivity|lra].
Qed.

Lemma skew_guarded_1 : guarded_angle skew_fan 0 1 = PI / 2.
Proof.
  rewrite (guarded_angle_at skew_fan 0 1 (rvec 1 0 0) (rvec 1 0 0)
             (rvec 3 (-1) 0) (rvec 0 (-1) 0));
    [|reflexivity|apply normalized_x|apply skew_centre_1|vec_eq].
  rewrite (vlength_eq _ 1); [|lra|sc_eq].
  destruct (Rlt_dec _ _); [lra|apply skew_signed_1].
Qed.

Lemma skew_guarded_2 : guarded_angle skew_fan 0 2 = - (PI / 2).
Proof.
  rewrite (guarded_angle_at skew_fan 0 2 (rvec 1 0 0) (rvec 1 0 0)
             (rvec 4 1 0) (rvec 0 1 0));
    [|reflexivity|apply normalized_x|apply skew_centre_2|vec_eq].
  rewrite (vlength_eq _ 1); [|lra|sc_eq].
  destruct (Rlt_dec _ _); [lra|apply skew_signed_2].
Qed.

Lemma skew_link_faces_0 : link_faces skew_fan 0 = [0; 1; 2]%nat.
Proof. reflexivity. Qed.

(** The script lists the three faces around vertex [0] in the order
    [2], [0], [1]. *)
Lemma skew_dual_corners :
  dual_corners skew_fan (seq 0 (length (faces skew_fan))) 0 = [2; 0; 1]%nat.
Proof.
  rewrite dual_corners_sorted_faces, items_of_guarded, skew_link_faces_0.
  cbn [map]. rewrite skew_guarded_0, skew_guarded_1, skew_guarded_2.
  pose proof PI_RGT_0 as Hpi.
  unfold sort_by_key. cbn [fold_right insert_by_key fst fltb RScalar].
  replace (Rltb (- (PI / 2)) (PI / 2)) with true
    by (symmetry; apply Rltb_true; lra).
  cbn [insert_by_key fst fltb RScalar].
  replace (Rltb (- (PI / 2)) 0) with true
    by (symmetry; apply Rltb_true; lra).
  replace (Rltb (PI / 2) 0) with false
    by (symmetry; apply Rltb_false; lra).
  reflexivity.
Qed.

Lemma skew_build_dual :
  exists d, build_dual_from_object (fun m => m) skew_fan = Ok d
            /\ faces d = [[2; 0; 1]]%nat.
Proof.
  rewrite build_dual_unfold.
  change (seq 0 (length (verts skew_fan))) with [0;1;2;3;4;5;6]%nat.
  set (d0 := mkBMesh _ _ _).
  cbn [dual_loop]. rewrite dual_step_eq.
  change (valence skew_fan 0 <? 3)%nat with false. cbv iota.
  rewrite skew_dual_corners.
  rewrite !dual_step_eq.
  change (valence skew_fan 1 <? 3)%nat with true.
  change (valence skew_fan 2 <? 3)%nat with true.
  change (valence skew_fan 3 <? 3)%nat with true.
  change (valence skew_fan 4 <? 3)%nat with true.
  change (valence skew_fan 5 <? 3)%nat with true.
  change (valence skew_fan 6 <? 3)%nat with true.
  cbv iota.
  eexists; split; [reflexivity|]. reflexivity.
Qed.

(** On [skew_fan] the script emits the corners of the dual face of vertex
    [0] in the order [2], [0], [1], although the signed angle of face [0]
    is larger than that of face [1]. *)
Lemma skew_fan_not_sorted_by_signed_angle :
  (3 <= valence skew_fan 0)%nat
  /\ (exists d, build_dual_from_object (fun m => m) skew_fan = Ok d
                /\ faces d = [dual_corners skew_fan
                                (seq 0 (length (faces skew_fan))) 0])
  /\ ~ StronglySorted
         (fun f g => signed_angle skew_fan 0 f <= signed_angle skew_fan 0 g)
         (dual_corners skew_fan (seq 0 (length (faces skew_fan))) 0).
Proof.
  split; [|split].
  - cbv. lia.
  - rewrite skew_dual_corners. apply skew_build_dual.
  - rewrite skew_dual_corners. intros Hs.
    apply StronglySorted_inv in Hs as [Hs _].
    apply StronglySorted_inv in Hs as [_ Hall].
    apply Forall_inv in Hall.
    rewrite skew_signed_0, skew_signed_1 in Hall.
    pose proof PI_RGT_0. lra.
Qed.


(** ** The dual of the octahedron *)

Lemma octahedron_dual_built :
  build_dual_from_object (fun m => m) octahedron = Ok octahedron_dual.
Proof.
  unfold octahedron_dual.
  destruct (build_dual_total (fun m => m) octahedron) as [d Hd].
  now rewrite Hd.
Qed.




(** ** A mesh that is not a manifold *)

(** The orders of three faces [0], [1], [2]. *)
Lemma fan_of_three (c : list nat) :
  Permutation c [0; 1; 2]%nat ->
  In c [[0; 1; 2]; [0; 2; 1]; [1; 0; 2]; [1; 2; 0]; [2; 0; 1]; [2; 1; 0]]%nat.
Proof.
  intros Hc.
  pose proof (Permutation_length Hc) as Hlen.
  assert (Hnd : nodupb c = true).
  { apply nodupb_NoDup, (Permutation_NoDup (Permutation_sym Hc)).
    repeat constructor; cbn [In]; lia. }
  destruct c as [|x [|y [|z [|w c]]]]; try discriminate Hlen.
  assert (Hx : In x [0; 1; 2]%nat) by (apply (Permutation_in _ Hc); now left).
  assert (Hy : In y [0; 1; 2]%nat)
    by (apply (Permutation_in _ Hc); right; now left).
  assert (Hz : In z [0; 1; 2]%nat)
    by (apply (Permutation_in _ Hc); right; right; now left).
  cbn [In] in Hx, Hy, Hz.
  destruct Hx as [<-|[<-|[<-|[]]]]; destruct Hy as [<-|[<-|[<-|[]]]];
    destruct Hz as [<-|[<-|[<-|[]]]]; try discriminate Hnd;
    cbn [In]; tauto.
Qed.

(** Two fans on the same three faces are the same face for the host. *)
Lemma same_verts_three (vs f : list nat) :
  Permutation vs [0; 1; 2]%nat -> Permutation f [0; 1; 2]%nat ->
  same_verts vs f = true.
Proof.
  intros Hvs Hf. apply fan_of_three in Hvs, Hf. cbn [In] in Hvs, Hf.
  repeat (destruct Hvs as [<-|Hvs]; [|]); try destruct Hvs;
    repeat (destruct Hf as [<-|Hf]; [|]); try destruct Hf; reflexivity.
Qed.

(** In [book] the vertices [0] and [1] have valence three and the same
    three faces around them: the host refuses the second dual face, and the
    dual has one face for two such vertices. *)
Lemma book_dual_omits_face :
  length (fan_vertices book (seq 0 (length (verts book)))) = 2%nat
  /\ exists d, build_dual_from_object (fun m => m) book = Ok d
               /\ length (faces d) = 1%nat.
Proof.
  split; [reflexivity|].
  rewrite build_dual_unfold.
  change (seq 0 (length (verts book))) with [0; 1; 2; 3; 4]%nat.
  set (d0 := mkBMesh _ _ _).
  set (ftd := seq 0 (length (faces book))).
  cbn [dual_loop]. rewrite !dual_step_eq.
  change (valence book 0 <? 3)%nat with false.
  change (valence book 1 <? 3)%nat with false.
  change (valence book 2 <? 3)%nat with true.
  change (valence book 3 <? 3)%nat with true.
  change (valence book 4 <? 3)%nat with true.
  cbv iota.
  pose proof (dual_corners_perm book 0) as P0.
  pose proof (dual_corners_perm book 1) as P1.
  fold ftd in P0, P1.
  change (link_faces book 0) with [0; 1; 2]%nat in P0.
  change (link_faces book 1) with [0; 1; 2]%nat in P1.
  assert (Hnd : forall c, Permutation c [0; 1; 2]%nat -> nodupb c = true).
  { intros c Hc. apply nodupb_NoDup.
    apply (Permutation_NoDup (Permutation_sym Hc)).
    repeat constructor; cbn [In]; lia. }
  assert (Hlen : forall c, Permutation c [0; 1; 2]%nat -> (3 <= length c)%nat).
  { intros c Hc. rewrite (Permutation_length Hc). cbn [length]. lia. }
  rewrite (faces_new_fresh d0 (dual_corners book ftd 0));
    [|now apply Hlen|now apply Hnd|reflexivity].
  rewrite faces_new_existing; [|now apply Hlen|now apply Hnd|].
  - eexists. split; [reflexivity|reflexivity].
  - subst d0. cbn [faces app existsb].
    now rewrite (same_verts_three _ _ P1 P0).
Qed.

(** ** The results at the samples *)

Lemma dual_counts_witness :
  all_triangles octahedron = true
  /\ closed_manifold octahedron = true
  /\ exists d,
       build_dual_from_object (fun m => m) octahedron = Ok d
       /\ length (verts d) = length (faces octahedron)
       /\ length (faces d)
          = length (filter (fun v => (3 <=? valence octahedron v)%nat)
                           (seq 0 (length (verts octahedron)))).
Proof.
  split; [reflexivity|]. split; [reflexivity|].
  apply (dual_counts (fun m => m) (fun m _ => eq_refl) octahedron);
    reflexivity.
Defined.

Lemma dual_face_sorted_by_angle_witness :
  build_dual_from_object (fun m => m) octahedron = Ok octahedron_dual
  /\ forall fc, In fc (faces octahedron_dual) ->
       exists v, (3 <= valence octahedron v)%nat
                 /\ fc = dual_corners octahedron
                           (seq 0 (length (faces octahedron))) v.
Proof.
  split; [exact octahedron_dual_built|].
  exact (proj1 (dual_face_sorted_by_angle (fun m => m) octahedron
                  octahedron_dual octahedron_dual_built)).
Defined.

Lemma build_dual_never_raises_witness :
  ((valence path_mesh 3 < 3)%nat
   /\ dual_step path_mesh [] (mkBMesh [] [] []) 3 = Ok (mkBMesh [] [] []))
  /\ ((3 <= valence octahedron 0)%nat
      /\ dual_step octahedron (seq 0 8) octahedron_dual 0
         = Ok (match faces_new octahedron_dual
                       (dual_corners octahedron (seq 0 8) 0) with
               | Ok d' => d'
               | Raise _ => octahedron_dual
               end)).
Proof.
  assert (Hlow : (valence path_mesh 3 < 3)%nat) by (cbv; lia).
  assert (Hhigh : (3 <= valence octahedron 0)%nat) by (cbv; lia).
  destruct (build_dual_never_raises (fun m => m) octahedron)
    as (_ & Hskip & Hkeep).
  split; split; [exact Hlow | exact (Hskip _ _ _ _ Hlow)
                | exact Hhigh | exact (Hkeep _ _ _ _ Hhigh)].
Defined.

Lemma nonpositive_iters_no_smoothing_witness :
  (-3 <= 0)%Z
  /\ organic_jitter_dual_on_sphere (RG := LcgRng) 0%Z path_mesh 60 3 (-3)
       (55 / 100) 7
     = organic_jitter_dual_on_sphere (RG := LcgRng) 0%Z path_mesh 60 3 0
         (55 / 100) 7.
Proof.
  assert (Hle : (-3 <= 0)%Z) by lia.
  split; [exact Hle|].
  exact (proj2 (proj2 (nonpositive_iters_no_smoothing (RG := LcgRng) 0%Z
                         path_mesh 60 3 (-3) (55 / 100) 7 Hle))).
Defined.

Lemma smooth_pass_lambda_one_witness :
  (1 < length (verts path_mesh))%nat
  /\ offset_at (smooth_pass path_mesh 1
                  [rvec 1 0 0; rvec 0 1 0; rvec 0 0 1; rvec 2 2 2]) 1
     = mean_of [rvec 1 0 0; rvec 0 0 1].
Proof.
  assert (Hv : (1 < length (verts path_mesh))%nat) by (cbn; lia).
  split; [exact Hv|].
  exact (smooth_pass_lambda_one path_mesh
           [rvec 1 0 0; rvec 0 1 0; rvec 0 0 1; rvec 2 2 2] 1%nat Hv).
Defined.



(** ** A vertex below the cutoff of the normalization *)

Lemma speck_length :
  vlength (rvec (1 / 100000000000000000000) 0 0)
  = 1 / 100000000000000000000.
Proof. apply vlength_eq; [lra|sc_eq]. Qed.

Lemma speck_projection (radius : R) :
  project_to_radius (rvec (1 / 100000000000000000000) 0 0) radius
  = rvec 0 0 0.
Proof.
  rewrite project_nonzero_length by (rewrite speck_length; lra).
  rewrite normalized_below by sc_eq. vec_eq.
Qed.

(** C5: the vertex of [speck] is not at the origin, so the fallback of
    [project_to_radius] does not apply to it, yet its square length is
    below the cutoff of the host's normalization: a pass with strength zero
    and radius [60] writes it back at the origin, at distance [0] and not
    [60] from it. *)
Theorem speck_left_off_sphere :
  vlength (vert_co speck 0) <> 0
  /\ verts (fst (organic_jitter_dual_on_sphere (RG := LcgRng) 0%Z speck 60 0
                   10 (55 / 100) 7))
     = [rvec 0 0 0]
  /\ vlength (rvec 0 0 0) <> 60.
Proof.
  split; [|split].
  - change (vert_co speck 0) with (rvec (1 / 100000000000000000000) 0 0).
    rewrite speck_length. lra.
  - rewrite jitter_zero_strength_verts. cbn [speck verts map].
    now rewrite speck_projection.
  - rewrite (vlength_eq _ 0); [lra|lra|sc_eq].
Qed.

End Samples.

(* ------------------------------------------------------------------ *)
(** * Further properties of the smoother and of the dual builder *)

(* ------------------------------------------------------------------ *)
(** * Further properties, for every arithmetic *)

Section Adjacency.

Context {F : Type} {SF : Scalar F} {RG : Rng F}.

Local Abbreviation Vec := (Vector F).
Local Abbreviation Mesh := (BMesh F).

(** The neighbours of [v] are the other ends of the edges at [v]. *)
Lemma nbrs_In (m : Mesh) (v u : nat) :
  In u (nbrs m v) <-> In (v, u) (edges m) \/ In (u, v) (edges m).
Proof.
  unfold nbrs, link_edges, other_vert. rewrite in_map_iff. split.
  - intros ([a b] & Hu & He). apply filter_In in He as [He Hends].
    cbn [fst snd] in *.
    destruct (a =? v) eqn:Ea.
    + apply Nat.eqb_eq in Ea. subst. now left.
    + cbn [orb] in Hends. apply Nat.eqb_eq in Hends. subst. now right.
  - intros [He|He].
    + exists (v, u). cbn [fst snd]. rewrite Nat.eqb_refl.
      split; [reflexivity|]. apply filter_In. cbn [fst snd].
      now rewrite Nat.eqb_refl.
    + exists (u, v). cbn [fst snd]. split.
      * destruct (u =? v) eqn:Eu; [|reflexivity].
        apply Nat.eqb_eq in Eu. now subst.
      * apply filter_In. cbn [fst snd]. rewrite Nat.eqb_refl.
        split; [exact He | apply orb_true_r].
Qed.

(** X1: the adjacency list of the smoother is symmetric: [u] is a
    neighbour of [v] exactly when [v] is a neighbour of [u], and both hold
    exactly when an edge joins the two. *)
Theorem nbrs_symmetric (m : Mesh) (u v : nat) :
  (In u (nbrs m v) <-> In v (nbrs m u))
  /\ (In u (nbrs m v) <-> In (v, u) (edges m) \/ In (u, v) (edges m)).
Proof.
  split; [|apply nbrs_In].
  rewrite !nbrs_In. tauto.
Qed.

Lemma draws_add (a b : nat) (g : RngState) :
  draws (a + b) g = draws b (draws a g).
Proof.
  unfold draws. rewrite Nat.add_comm. apply Nat.iter_add.
Qed.

Lemma initial_offset_draws (strength : F) (co : Vec) (g : RngState) :
  snd (initial_offset strength co g) = draws 2 g.
Proof.
  unfold initial_offset, uniform. cbv [draws Nat.iter nat_rect].
  destruct (tangent_basis (normalized co)) as [t b].
  destruct (rng_random g) as [r1 g1]. cbn [snd].
  destruct (rng_random g1) as [r2 g2]. reflexivity.
Qed.

Lemma initial_offsets_draws (strength : F) (vs : list Vec) (g : RngState) :
  snd (initial_offsets strength vs g) = draws (2 * length vs) g.
Proof.
  revert g; induction vs as [|co vs IH]; intros g; [reflexivity|].
  cbn [initial_offsets length].
  pose proof (initial_offset_draws strength co g) as H1.
  destruct (initial_offset strength co g) as [o g1]. cbn [snd] in H1.
  specialize (IH g1).
  destruct (initial_offsets strength vs g1) as [os g2]. cbn [snd] in *.
  replace (2 * S (length vs)) with (2 + 2 * length vs) by lia.
  now rewrite draws_add, <- H1.
Qed.

(** X2: a call of the smoother leaves the module-level generator in the
    state reached from the seed by two draws per vertex, whatever the
    strength, the iteration count and lambda are. *)
Theorem jitter_draws_two_per_vertex (g : RngState) (m : Mesh)
  (radius strength : F) (iters : Z) (lam : F) (seed : Z) :
  snd (organic_jitter_dual_on_sphere g m radius strength iters lam seed)
  = draws (2 * length (verts m)) (rng_seed seed).
Proof.
  unfold organic_jitter_dual_on_sphere, jitter_offsets, random_seed.
  pose proof (initial_offsets_draws strength (verts m) (rng_seed seed)) as H.
  destruct (initial_offsets strength (verts m) (rng_seed seed)) as [os g'].
  exact H.
Qed.

End Adjacency.

Section DualShape.

Context {F : Type} {SF : Scalar F}.

Local Abbreviation Vec := (Vector F).
Local Abbreviation Mesh := (BMesh F).

Variable triangulate : Mesh -> Mesh.

(** ** Vertices and number of faces of the dual of any mesh *)

Lemma dual_loop_faces_le (bm : Mesh) (ftd vs : list nat) (d d' : Mesh) :
  dual_loop bm ftd vs d = Ok d' ->
  length (faces d') <= length (faces d) + length (fan_vertices bm vs).
Proof.
  revert d; induction vs as [|v vs IH]; intros d; cbn [dual_loop].
  - intros [= <-]. lia.
  - rewrite dual_step_eq. intros Hloop. apply IH in Hloop.
    unfold fan_vertices in *. cbn [filter].
    destruct (valence bm v <? 3) eqn:Ev.
    + apply Nat.ltb_lt in Ev.
      destruct (3 <=? valence bm v) eqn:E3; [apply Nat.leb_le in E3; lia|].
      exact Hloop.
    + apply Nat.ltb_ge in Ev.
      destruct (3 <=? valence bm v) eqn:E3; [|apply Nat.leb_gt in E3; lia].
      cbn [length].
      destruct (faces_new d (dual_corners bm ftd v)) as [d1|e] eqn:En;
        [|lia].
      apply faces_new_ok in En as [_ En]. rewrite En, length_app in Hloop.
      cbn [length] in Hloop. lia.
Qed.

(** X3: for every input mesh the dual has exactly one vertex per face of
    the triangulated mesh, placed at the median centre of that face and in
    the order of the faces, and at most one face per vertex of valence
    three or more. *)
Theorem dual_vertices_and_face_bound (obj : Mesh) :
  let bm := triangulate obj in
  exists d,
    build_dual_from_object triangulate obj = Ok d
    /\ verts d = map (calc_center_median bm) (seq 0 (length (faces bm)))
    /\ length (faces d)
       <= length (fan_vertices bm (seq 0 (length (verts bm)))).
Proof.
  intros bm. destruct (build_dual_total triangulate obj) as [d Hd].
  exists d. split; [exact Hd|]. split.
  - apply (build_dual_verts triangulate obj d Hd).
  - rewrite build_dual_unfold in Hd.
    apply dual_loop_faces_le in Hd. exact Hd.
Qed.

(** ** Shape of the dual faces *)

Lemma build_dual_verts_length (obj d : Mesh) :
  build_dual_from_object triangulate obj = Ok d ->
  length (verts d) = length (faces (triangulate obj)).
Proof.
  intros Hd. rewrite (build_dual_verts triangulate obj d Hd).
  now rewrite length_map, length_seq.
Qed.

(** The dual faces are fans: permutations of the faces around a vertex of
    valence three or more. *)
Lemma dual_face_is_fan (obj d : Mesh) (fc : list nat) :
  build_dual_from_object triangulate obj = Ok d -> In fc (faces d) ->
  exists v, 3 <= valence (triangulate obj) v
            /\ Permutation fc (link_faces (triangulate obj) v).
Proof.
  intros Hd Hfc.
  destruct (build_dual_face_origin triangulate obj d Hd fc Hfc)
    as (v & Hval & ->).
  exists v. split; [exact Hval | apply dual_corners_perm].
Qed.

Lemma dual_face_corners_lt (obj d : Mesh) (fc : list nat) (x : nat) :
  build_dual_from_object triangulate obj = Ok d -> In fc (faces d) ->
  In x fc -> x < length (verts d).
Proof.
  intros Hd Hfc Hx.
  destruct (dual_face_is_fan obj d fc Hd Hfc) as (v & _ & Hperm).
  apply (Permutation_in _ Hperm) in Hx. apply link_faces_lt in Hx.
  now rewrite (build_dual_verts_length obj d Hd).
Qed.

(** X4: every face of the dual has three or more corners, no corner twice,
    and only dual vertices as corners; and it is the fan of some original
    vertex [v]: the dual vertex of face [f] is one of its corners exactly
    when [v] is a corner of [f]. *)
Theorem dual_faces_well_formed (obj : Mesh) :
  let bm := triangulate obj in
  exists d,
    build_dual_from_object triangulate obj = Ok d
    /\ Forall (fun fc =>
         3 <= length fc
         /\ NoDup fc
         /\ Forall (fun x => x < length (verts d)) fc
         /\ exists v, forall f,
              In f fc <-> f < length (faces bm) /\ In v (face_at bm f))
       (faces d).
Proof.
  intros bm. destruct (build_dual_total triangulate obj) as [d Hd].
  exists d. split; [exact Hd|]. apply Forall_forall. intros fc Hfc.
  destruct (dual_face_is_fan obj d fc Hd Hfc) as (v & Hval & Hperm).
  fold bm in Hval, Hperm.
  split; [|split; [|split]].
  - rewrite (Permutation_length Hperm). exact Hval.
  - apply (Permutation_NoDup (Permutation_sym Hperm)), link_faces_NoDup.
  - apply Forall_forall. intros x Hx.
    apply (dual_face_corners_lt obj d fc x Hd Hfc Hx).
  - exists v. intros f. split.
    + intros Hf. apply (Permutation_in _ Hperm) in Hf.
      apply (link_faces_In triangulate) in Hf. destruct Hf as [Hlt Hmem].
      split; [exact Hlt | apply mem_In, Hmem].
    + intros [Hlt Hin]. apply (Permutation_in _ (Permutation_sym Hperm)).
      apply (link_faces_In triangulate).
      split; [exact Hlt | apply mem_In, Hin].
Qed.

(** ** Edges of the dual *)

Lemma has_edge_incl (es es' : list (nat * nat)) (a b : nat) :
  incl es es' -> has_edge es a b = true -> has_edge es' a b = true.
Proof.
  unfold has_edge. intros Hincl Hex.
  apply existsb_exists in Hex as (e & He & Hab).
  apply existsb_exists. exists e. split; [apply Hincl, He|exact Hab].
Qed.

Lemma add_edge_incl (es : list (nat * nat)) (e : nat * nat) :
  incl es (add_edge es e).
Proof.
  unfold add_edge. destruct (has_edge es (fst e) (snd e)).
  - apply incl_refl.
  - apply incl_appl, incl_refl.
Qed.

Lemma add_edge_has (es : list (nat * nat)) (e : nat * nat) :
  has_edge (add_edge es e) (fst e) (snd e) = true.
Proof.
  unfold add_edge. destruct (has_edge es (fst e) (snd e)) eqn:E; [exact E|].
  unfold has_edge. apply existsb_exists. exists e. split.
  - apply in_or_app. right. now left.
  - now rewrite !Nat.eqb_refl.
Qed.

Lemma fold_add_edge_incl (ps es : list (nat * nat)) :
  incl es (fold_left add_edge ps es).
Proof.
  revert es; induction ps as [|p ps IH]; intros es; cbn [fold_left].
  - apply incl_refl.
  - eapply incl_tran; [apply add_edge_incl | apply IH].
Qed.

Lemma fold_add_edge_has (ps es : list (nat * nat)) (p : nat * nat) :
  In p ps -> has_edge (fold_left add_edge ps es) (fst p) (snd p) = true.
Proof.
  revert es; induction ps as [|q ps IH]; intros es Hp; [destruct Hp|].
  cbn [fold_left]. destruct Hp as [->|Hp].
  - eapply has_edge_incl; [apply fold_add_edge_incl | apply add_edge_has].
  - now apply IH.
Qed.

Lemma fold_add_edge_In (ps es : list (nat * nat)) (e : nat * nat) :
  In e (fold_left add_edge ps es) -> In e es \/ In e ps.
Proof.
  revert es; induction ps as [|p ps IH]; intros es He; cbn [fold_left] in He.
  - now left.
  - apply IH in He as [He|He]; [|right; now right].
    unfold add_edge in He.
    destruct (has_edge es (fst p) (snd p)); [now left|].
    apply in_app_or in He as [He|[<-|[]]]; [now left|right; now left].
Qed.

Lemma faces_new_sides (d d' : Mesh) (vs : list nat) :
  sides_are_edges d -> faces_new d vs = Ok d' -> sides_are_edges d'.
Proof.
  intros [Hes Hfs]. unfold faces_new.
  destruct (length vs <? 3); [discriminate|].
  destruct (negb (nodupb vs)); [discriminate|].
  destruct (existsb (same_verts vs) (faces d)); [discriminate|].
  intros [= <-]. unfold sides_are_edges. cbn [edges faces]. split.
  - apply Forall_forall. intros e He.
    apply fold_add_edge_In in He as [He|He].
    + rewrite Forall_forall in Hes.
      destruct (Hes e He) as (fc & Hfc & Hin).
      exists fc. split; [apply in_or_app; now left|exact Hin].
    + exists vs. split; [apply in_or_app; right; now left|exact He].
  - apply Forall_app. split.
    + rewrite Forall_forall in *. intros fc Hfc.
      specialize (Hfs fc Hfc). rewrite Forall_forall in *.
      intros e He. eapply has_edge_incl;
        [apply fold_add_edge_incl | apply Hfs, He].
    + constructor; [|constructor].
      apply Forall_forall. intros e He. now apply fold_add_edge_has.
Qed.

Lemma dual_loop_sides (bm : Mesh) (ftd vs : list nat) (d d' : Mesh) :
  sides_are_edges d -> dual_loop bm ftd vs d = Ok d' -> sides_are_edges d'.
Proof.
  revert d; induction vs as [|v vs IH]; intros d Hinv; cbn [dual_loop].
  - now intros [= <-].
  - rewrite dual_step_eq. apply IH.
    destruct (valence bm v <? 3); [exact Hinv|].
    destruct (faces_new d (dual_corners bm ftd v)) as [d1|e] eqn:En;
      [|exact Hinv].
    eapply faces_new_sides; eauto.
Qed.

Lemma cyclic_pairs_ends (vs : list nat) (e : nat * nat) :
  In e (cyclic_pairs vs) -> In (fst e) vs /\ In (snd e) vs.
Proof.
  unfold cyclic_pairs. destruct e as [a b]. intros He. cbn [fst snd].
  split; [|eapply in_combine_r, He].
  destruct vs as [|x vs]; [destruct He|].
  apply in_combine_l in He.
  assert (Hne : x :: vs <> []) by discriminate.
  rewrite (app_removelast_last 0%nat Hne).
  apply in_or_app. destruct He as [<-|He]; [right; now left|now left].
Qed.

Lemma build_dual_sides (obj d : Mesh) :
  build_dual_from_object triangulate obj = Ok d -> sides_are_edges d.
Proof.
  rewrite build_dual_unfold. intros Hd.
  eapply dual_loop_sides; [|exact Hd].
  split; constructor.
Qed.

Lemma dual_edges_in_range (obj d : Mesh) :
  build_dual_from_object triangulate obj = Ok d -> edges_in_range d.
Proof.
  intros Hd e He.
  destruct (build_dual_sides obj d Hd) as [Hes _].
  rewrite Forall_forall in Hes.
  destruct (Hes e He) as (fc & Hfc & Hin).
  apply cyclic_pairs_ends in Hin as [Ha Hb].
  split; eapply dual_face_corners_lt; eauto.
Qed.

(** X5: in the dual the builder returns, every edge is a side of a dual
    face, every side of a dual face is an edge, and both ends of every edge
    are dual vertices, so the neighbours the smoother looks up are vertices
    of the mesh. *)
Theorem dual_edges_are_face_sides (obj : Mesh) :
  exists d,
    build_dual_from_object triangulate obj = Ok d
    /\ sides_are_edges d
    /\ edges_in_range d
    /\ Forall (fun v => Forall (fun u => u < length (verts d)) (nbrs d v))
              (seq 0 (length (verts d))).
Proof.
  destruct (build_dual_total triangulate obj) as [d Hd].
  exists d. split; [exact Hd|].
  pose proof (dual_edges_in_range obj d Hd) as Hrange.
  split; [apply (build_dual_sides obj d Hd)|]. split; [exact Hrange|].
  apply Forall_forall. intros v _. apply Forall_forall. intros u Hu.
  unfold nbrs, link_edges in Hu. apply in_map_iff in Hu as (e & <- & He).
  apply filter_In in He as [He _]. destruct (Hrange e He) as [Ha Hb].
  unfold other_vert. now destruct (fst e =? v).
Qed.

End DualShape.

Section RealGeometry.

Local Open Scope R_scope.

Local Abbreviation RVec := (Vector R).

(** ** Algebra of the dot and cross products *)

Lemma vdot_comm (p q : RVec) : vdot p q = vdot q p.
Proof. destruct p, q. unfold_vec. ring. Qed.

Lemma vdot_vadd_l (p q w : RVec) : vdot (vadd p q) w = vdot p w + vdot q w.
Proof. destruct p, q, w. unfold_vec. ring. Qed.

Lemma vdot_vsub_l (p q w : RVec) : vdot (vsub p q) w = vdot p w - vdot q w.
Proof. destruct p, q, w. unfold_vec. ring. Qed.

Lemma vdot_smulv_l (s : R) (p w : RVec) : vdot (smulv s p) w = s * vdot p w.
Proof. destruct p, w. unfold_vec. ring. Qed.

Lemma vdot_vmuls_l (s : R) (p w : RVec) : vdot (vmuls p s) w = s * vdot p w.
Proof. destruct p, w. unfold_vec. ring. Qed.

Lemma vdot_vdivs_l (s : R) (p w : RVec) : vdot (vdivs p s) w = vdot p w / s.
Proof. destruct p, w. unfold_vec. unfold Rdiv. ring. Qed.

Lemma vdot_vzero_l (w : RVec) : vdot vzero w = 0.
Proof. destruct w. unfold_vec. ring. Qed.

Lemma vcross_orth_l (p q : RVec) : vdot (vcross p q) p = 0.
Proof. destruct p, q. unfold_vec. ring. Qed.

Lemma vcross_orth_r (p q : RVec) : vdot (vcross p q) q = 0.
Proof. destruct p, q. unfold_vec. ring. Qed.

(** The identity of Lagrange. *)
Lemma vcross_sqr (p q : RVec) :
  vdot (vcross p q) (vcross p q)
  = vdot p p * vdot q q - vdot p q * vdot p q.
Proof. destruct p, q. unfold_vec. ring. Qed.

Lemma vlength_nonneg (p : RVec) : 0 <= vlength p.
Proof. unfold vlength. cbn [fsqrt RScalar]. apply sqrt_pos. Qed.


Lemma vlength_nonzero (p : RVec) : 0 < vdot p p -> vlength p <> 0.
Proof.
  intros Hpos H0. pose proof (vlength_sqr p) as Hs. rewrite H0 in Hs. lra.
Qed.

Lemma vdot_pos_of_length (p : RVec) : vlength p <> 0 -> 0 < vdot p p.
Proof.
  intros H0. pose proof (vlength_sqr p) as Hs.
  pose proof (vlength_nonneg p). nra.
Qed.

(** A unit vector is its own normalized form. *)
Lemma normalized_of_unit (p : RVec) : vdot p p = 1 -> normalized p = p.
Proof.
  intros Hu.
  assert (Hl : vlength p = 1) by (apply vlength_eq; lra).
  rewrite normalized_above by (unfold normalizable; lra). rewrite Hl.
  destruct p as [x y z]. unfold_vec. f_equal; field.
Qed.

Lemma normalized_idempotent (p : RVec) :
  normalized (normalized p) = normalized p.
Proof.
  destruct (normalized_cases p) as [Hz|Hu].
  - rewrite Hz. apply normalized_zero.
    unfold_vec. replace (0 * 0 + 0 * 0 + 0 * 0) with 0 by ring. apply sqrt_0.
  - apply normalized_of_unit, Hu.
Qed.

(** The normalized form has square length one or zero. *)
Lemma normalized_sqr_cases (p : RVec) :
  vdot (normalized p) (normalized p) = 1
  \/ vdot (normalized p) (normalized p) = 0.
Proof.
  destruct (normalized_cases p) as [Hz|Hu].
  - right. rewrite Hz. apply vdot_vzero_l.
  - left. exact Hu.
Qed.

Lemma vdot_normalized_l (p w : RVec) :
  normalizable p -> vdot (normalized p) w = vdot p w / vlength p.
Proof.
  intros Hp. rewrite (normalized_above _ Hp). apply vdot_vdivs_l.
Qed.

(** ** The tangent basis *)

Lemma first_cross_normalizable (u : RVec) :
  vdot u u = 1 ->
  let a := if Rltb (Rabs (vx u)) (9 / 10)
           then mkVector 1 0 0 else mkVector 0 1 0 in
  normalizable (vcross u a).
Proof.
  intros Hu a. subst a. unfold normalizable.
  destruct u as [x y z]. cbn [vx].
  destruct (Rltb (Rabs x) (9 / 10)) eqn:E.
  - apply Rltb_true in E. unfold_vec.
    assert (Hx : x * x < 81 / 100).
    { unfold Rabs in E. destruct (Rcase_abs x); nra. }
    nra.
  - apply Rltb_false in E. unfold_vec.
    assert (Hx : 81 / 100 <= x * x).
    { unfold Rabs in E. destruct (Rcase_abs x); nra. }
    nra.
Qed.

(** The frame of a vector above the cutoff of the normalization. *)
Lemma tangent_basis_frame (n : RVec) :
  normalizable n ->
  vdot (fst (tangent_basis n)) (fst (tangent_basis n)) = 1
  /\ vdot (snd (tangent_basis n)) (snd (tangent_basis n)) = 1
  /\ vdot (fst (tangent_basis n)) (snd (tangent_basis n)) = 0
  /\ vdot (fst (tangent_basis n)) (normalized n) = 0
  /\ vdot (snd (tangent_basis n)) (normalized n) = 0.
Proof.
  intros H0. unfold tangent_basis. cbn [fst snd].
  pose proof (normalized_unit _ H0) as Hu.
  set (u := normalized n) in *.
  pose proof (first_cross_normalizable u Hu) as Hc. cbn zeta in Hc.
  change (fltb (fabs (vx u)) lit_0_9) with (Rltb (Rabs (vx u)) (9 / 10)).
  change (mkVector f1 f0 f0 : RVec) with (mkVector 1 0 0 : RVec).
  change (mkVector f0 f1 f0 : RVec) with (mkVector 0 1 0 : RVec).
  set (a := if Rltb (Rabs (vx u)) (9 / 10)
            then mkVector 1 0 0 else mkVector 0 1 0) in *.
  set (c := vcross u a) in *.
  set (t := normalized c).
  assert (Ht : vdot t t = 1) by (apply normalized_unit, Hc).
  assert (Htu : vdot t u = 0).
  { unfold t. rewrite (vdot_normalized_l _ _ Hc). unfold c.
    rewrite vcross_orth_l. unfold Rdiv. ring. }
  assert (Hb0 : vdot (vcross u t) (vcross u t) = 1).
  { rewrite vcross_sqr, Hu, Ht, (vdot_comm u t), Htu. ring. }
  rewrite (normalized_of_unit _ Hb0).
  repeat split.
  - exact Ht.
  - exact Hb0.
  - rewrite vdot_comm. apply vcross_orth_r.
  - exact Htu.
  - apply vcross_orth_l.
Qed.

(** X6: for a vector [n] of square length above [1.0e-35],
    [tangent_basis] returns two unit vectors that are orthogonal to each
    other and to the direction of [n]. *)
Theorem tangent_basis_orthonormal (n : RVec) :
  normalizable n ->
  vdot (fst (tangent_basis n)) (fst (tangent_basis n)) = 1
  /\ vdot (snd (tangent_basis n)) (snd (tangent_basis n)) = 1
  /\ vdot (fst (tangent_basis n)) (snd (tangent_basis n)) = 0
  /\ vdot (fst (tangent_basis n)) (normalized n) = 0
  /\ vdot (snd (tangent_basis n)) (normalized n) = 0.
Proof. apply tangent_basis_frame. Qed.

(** X7: [tangent_basis] of the zero vector raises nothing and returns two
    zero vectors. *)
Theorem tangent_basis_zero : tangent_basis (vzero : RVec) = (vzero, vzero).
Proof.
  unfold tangent_basis. cbv zeta.
  assert (Hz : vlength (vzero : RVec) = 0).
  { unfold_vec. replace (0 * 0 + 0 * 0 + 0 * 0) with 0 by ring. apply sqrt_0. }
  rewrite (normalized_zero _ Hz).
  assert (Hc : forall a : RVec, vcross vzero a = vzero).
  { intros [x y z]. unfold_vec. f_equal; ring. }
  rewrite !Hc, (normalized_zero _ Hz).
  reflexivity.
Qed.

(** ** The projection on the sphere *)

Lemma project_radius_zero (p : RVec) : project_to_radius p 0 = vzero.
Proof.
  destruct (Req_dec_T (vlength p) 0) as [H0|H0].
  - rewrite (project_zero_length _ 0 H0). reflexivity.
  - rewrite (project_nonzero_length _ 0 H0).
    destruct (normalized p) as [a b c]. unfold_vec. f_equal; ring.
Qed.

Lemma vlength_vzero : vlength (vzero : RVec) = 0.
Proof.
  unfold_vec. replace (0 * 0 + 0 * 0 + 0 * 0) with 0 by ring. apply sqrt_0.
Qed.

(** X8: for a position at the origin or of square length above [1.0e-35],
    and a radius that is zero or positive with square above [1.0e-35],
    projecting twice is projecting once. *)
Theorem project_idempotent (p : RVec) (radius : R) :
  vlength p = 0 \/ normalizable p ->
  radius = 0
  \/ (0 < radius
      /\ 1 / 100000000000000000000000000000000000 < radius * radius) ->
  project_to_radius (project_to_radius p radius) radius
  = project_to_radius p radius.
Proof.
  intros Hp [->|[Hr Hcut]].
  - rewrite !project_radius_zero. reflexivity.
  - assert (Hl : vlength (project_to_radius p radius) = radius).
    { rewrite (vlength_project _ _ Hp). apply Rabs_pos_eq. lra. }
    apply project_on_sphere; [exact Hl|].
    right. unfold normalizable. now rewrite <- vlength_sqr, Hl.
Qed.

Lemma vlength_smulv (s : R) (p : RVec) :
  0 <= s -> vlength (smulv s p) = s * vlength p.
Proof.
  intros Hs. apply vlength_eq.
  - apply Rmult_le_pos; [exact Hs | apply vlength_nonneg].
  - pose proof (vlength_sqr p) as Hp.
    replace (s * vlength p * (s * vlength p))
      with (s * s * (vlength p * vlength p)) by ring.
    rewrite Hp. destruct p as [x y z]. unfold_vec. ring.
Qed.

(** X9: the projection depends on the direction only: for a positive
    factor [s] and a position [p] such that [p] and [s * p] both have
    square length above [1.0e-35], [s * p] and [p] have the same
    projection. *)
Theorem project_scale_invariant (s : R) (p : RVec) (radius : R) :
  0 < s -> normalizable p -> normalizable (smulv s p) ->
  project_to_radius (smulv s p) radius = project_to_radius p radius.
Proof.
  intros Hs Hp Hsp.
  assert (Hl : vlength (smulv s p) = s * vlength p)
    by (apply vlength_smulv; lra).
  pose proof (normalizable_length _ Hp) as H0.
  pose proof (normalizable_length _ Hsp) as H1.
  rewrite (project_nonzero_length _ radius H1),
          (project_nonzero_length _ radius H0).
  rewrite (normalized_above _ Hsp), (normalized_above _ Hp), Hl.
  set (L := vlength p) in *. clearbody L.
  destruct p as [x y z]. unfold_vec. f_equal; field; lra.
Qed.

(** ** The displaced position *)

Lemma tangential_dot_co (co off : RVec) :
  normalizable co -> vdot (tangential co off) co = 0.
Proof.
  intros Hco. pose proof (normalizable_length _ Hco) as H0.
  pose proof (tangential_orthogonal co off) as Ht.
  rewrite vdot_comm, (vdot_normalized_l _ _ Hco), vdot_comm in Ht.
  unfold Rdiv in Ht.
  apply Rmult_integral in Ht as [Ht|Ht]; [exact Ht|].
  exfalso. revert Ht. apply Rinv_neq_0_compat, H0.
Qed.

(** The displaced position is not shorter than the position. *)
Lemma displaced_normalizable (co off : RVec) :
  normalizable co -> normalizable (vadd co (tangential co off)).
Proof.
  intros Hco. unfold normalizable in *.
  pose proof (tangential_dot_co co off Hco) as Hd.
  pose proof (vdot_self_nonneg (tangential co off)) as Hdd.
  assert (E : vdot (vadd co (tangential co off)) (vadd co (tangential co off))
              = vdot co co + 2 * vdot (tangential co off) co
                + vdot (tangential co off) (tangential co off)).
  { destruct co, (tangential _ off). unfold_vec. ring. }
  rewrite E, Hd. lra.
Qed.

(** The new position of a vertex above the cutoff is on the sphere. *)
Lemma apply_offset_on_sphere (radius : R) (co off : RVec) :
  0 <= radius -> normalizable co ->
  vlength (apply_offset radius co off) = radius.
Proof.
  intros Hr Hco. unfold apply_offset.
  rewrite vlength_project by (right; now apply displaced_normalizable).
  now apply Rabs_pos_eq.
Qed.

(** X10: a vertex of square length above [1.0e-35] is never sent to the
    fallback point or to the origin: the displaced position is above the
    cutoff too, and for a positive radius the new position stays on the
    side of the old one (their dot product is positive). *)
Theorem apply_offset_same_side (radius : R) (co off : RVec) :
  normalizable co -> 0 < radius ->
  normalizable (vadd co (tangential co off))
  /\ 0 < vdot (apply_offset radius co off) co.
Proof.
  intros Hco Hr.
  pose proof (displaced_normalizable co off Hco) as Hw.
  split; [exact Hw|].
  assert (Hdot : vdot (vadd co (tangential co off)) co = vdot co co).
  { rewrite vdot_vadd_l, (tangential_dot_co _ _ Hco). ring. }
  unfold apply_offset.
  rewrite (project_nonzero_length _ radius (normalizable_length _ Hw)),
          vdot_vmuls_l.
  rewrite (vdot_normalized_l _ _ Hw), Hdot.
  apply Rmult_lt_0_compat; [exact Hr|].
  apply Rdiv_lt_0_compat.
  - unfold normalizable in Hco. lra.
  - pose proof (vlength_nonneg (vadd co (tangential co off))).
    pose proof (normalizable_length _ Hw). lra.
Qed.

End RealGeometry.

Section RealField.

Local Open Scope R_scope.

Context {RG : Rng R}.

Local Abbreviation RVec := (Vector R).
Local Abbreviation RMesh := (BMesh R).

(** ** Bounds on the offsets *)

(** The inequality of Cauchy and Schwarz, for bounded vectors. *)
Lemma vdot_le_bounds (p q : RVec) (a b : R) :
  0 <= a -> 0 <= b -> vdot p p <= a * a -> vdot q q <= b * b ->
  vdot p q <= a * b.
Proof.
  intros Ha Hb Hp Hq.
  pose proof (vcross_sqr p q) as Hl.
  pose proof (vdot_self_nonneg (vcross p q)) as Hc.
  pose proof (vdot_self_nonneg p) as Hp0.
  pose proof (vdot_self_nonneg q) as Hq0.
  set (pp := vdot p p) in *. set (qq := vdot q q) in *.
  set (pq := vdot p q) in *. clearbody pp qq pq.
  assert (Hsq : pq * pq <= (a * b) * (a * b)) by nra.
  destruct (Rle_lt_dec pq (a * b)) as [Hle|Hgt]; [exact Hle|].
  assert (0 <= a * b) by nra. nra.
Qed.

Lemma vdot_vadd_sqr (p q : RVec) :
  vdot (vadd p q) (vadd p q) = vdot p p + 2 * vdot p q + vdot q q.
Proof. destruct p, q. unfold_vec. ring. Qed.

Lemma vdot_vmuls_sqr (p : RVec) (s : R) :
  vdot (vmuls p s) (vmuls p s) = s * s * vdot p p.
Proof. destruct p. unfold_vec. ring. Qed.

Lemma vdot_vdivs_sqr (p : RVec) (s : R) :
  s <> 0 -> vdot (vdivs p s) (vdivs p s) = vdot p p / (s * s).
Proof. intros Hs. destruct p. unfold_vec. field. exact Hs. Qed.

Lemma vdot_vlerp_sqr (a b : RVec) (lam : R) :
  vdot (vlerp a b lam) (vlerp a b lam)
  = (1 - lam) * (1 - lam) * vdot a a + 2 * lam * (1 - lam) * vdot a b
    + lam * lam * vdot b b.
Proof. destruct a, b. unfold_vec. ring. Qed.

Lemma uniform_range (a b : R) (g : RngState) :
  unit_draws RG -> a <= b -> a <= fst (uniform a b g) <= b.
Proof.
  intros Hu Hab. unfold uniform. specialize (Hu g).
  destruct (rng_random g) as [r g']. cbn [fst] in *. unfold_vec. nra.
Qed.

Lemma initial_offset_bound (strength : R) (co : RVec) (g : RngState) :
  unit_draws RG -> 0 <= strength ->
  vdot (fst (initial_offset strength co g))
       (fst (initial_offset strength co g)) <= strength * strength.
Proof.
  intros Hu Hs. unfold initial_offset.
  destruct (tangent_basis (normalized co)) as [t b].
  destruct (uniform f0 (fmul f2 fpi) g) as [ang g1].
  pose proof (uniform_range lit_0_2 f1 g1 Hu) as Hr.
  destruct (uniform lit_0_2 f1 g1) as [u g2]. cbn [fst] in *.
  assert (Hu2 : 2 / 10 <= u <= 1) by (apply Hr; unfold_vec; lra).
  rewrite vdot_vmuls_sqr. cbn [fmul RScalar].
  assert (Hm : u * strength * (u * strength) <= strength * strength).
  { assert (H1 : 0 <= 1 - u * u) by nra.
    assert (H2 : 0 <= strength * strength) by nra.
    pose proof (Rmult_le_pos _ _ H1 H2). nra. }
  destruct (normalized_sqr_cases
              (vadd (smulv (fcos ang) t) (smulv (fsin ang) b))) as [->| ->];
    nra.
Qed.

Lemma offset_at_nil (u : nat) : offset_at ([] : list RVec) u = vzero.
Proof. unfold offset_at. now destruct u. Qed.

Lemma initial_offsets_bound (strength : R) (vs : list RVec) (g : RngState) :
  unit_draws RG -> 0 <= strength ->
  bounded_field strength (fst (initial_offsets strength vs g)).
Proof.
  intros Hu Hs. revert g; induction vs as [|co vs IH]; intros g u;
    cbn [initial_offsets].
  - cbn [fst]. rewrite offset_at_nil, vdot_vzero_l. nra.
  - pose proof (initial_offset_bound strength co g Hu Hs) as Ho.
    destruct (initial_offset strength co g) as [o g1]. cbn [fst] in Ho.
    specialize (IH g1).
    destruct (initial_offsets strength vs g1) as [os g2]. cbn [fst] in *.
    destruct u as [|u]; [exact Ho | apply (IH u)].
Qed.

Lemma sum_bound (B : R) (l : list RVec) :
  0 <= B -> Forall (fun p => vdot p p <= B * B) l ->
  forall (acc : RVec) (k : nat),
    vdot acc acc <= (INR k * B) * (INR k * B) ->
    vdot (fold_left vadd l acc) (fold_left vadd l acc)
    <= (INR (k + length l) * B) * (INR (k + length l) * B).
Proof.
  intros HB. induction 1 as [|p l Hp Hl IH]; intros acc k Hacc;
    cbn [fold_left length].
  - now rewrite Nat.add_0_r.
  - replace (k + S (length l))%nat with (S k + length l)%nat by lia.
    apply IH. rewrite vdot_vadd_sqr, S_INR.
    pose proof (pos_INR k) as Hk.
    assert (Hkb : 0 <= INR k * B) by nra.
    pose proof (vdot_le_bounds acc p (INR k * B) B Hkb HB Hacc Hp). nra.
Qed.

Lemma smooth_vertex_bound (B lam : R) (m : RMesh) (offsets : list RVec)
  (v : nat) :
  0 <= B -> 0 <= lam <= 1 -> bounded_field B offsets ->
  vdot (smooth_vertex m lam offsets v) (smooth_vertex m lam offsets v)
  <= B * B.
Proof.
  intros HB Hlam Hb. unfold smooth_vertex. rewrite accumulate_eq.
  destruct (0 <? length (nbrs m v))%nat eqn:E; [|apply Hb].
  apply Nat.ltb_lt in E.
  set (k := length (nbrs m v)) in *.
  set (acc := fold_left vadd (map (offset_at offsets) (nbrs m v)) vzero).
  assert (Hacc : vdot acc acc <= (INR k * B) * (INR k * B)).
  { unfold acc, k. rewrite <- (length_map (offset_at offsets) (nbrs m v)).
    apply (sum_bound B _ HB) with (k := 0%nat).
    - apply Forall_forall. intros p Hp.
      apply in_map_iff in Hp as (u & <- & _). apply Hb.
    - rewrite vdot_vzero_l. cbn [INR]. nra. }
  assert (Hk : 0 < INR k) by (apply lt_0_INR, E).
  assert (Havg : vdot (vdivs acc (f_of_nat k)) (vdivs acc (f_of_nat k))
                 <= B * B).
  { unfold f_of_nat. cbn [f_of_Z RScalar]. rewrite <- INR_IZR_INZ.
    rewrite vdot_vdivs_sqr by lra.
    assert (Hkk : 0 < INR k * INR k) by nra.
    apply (Rmult_le_reg_r (INR k * INR k)); [exact Hkk|].
    unfold Rdiv. rewrite Rmult_assoc, Rinv_l by lra. nra. }
  rewrite vdot_vlerp_sqr.
  pose proof (vdot_le_bounds _ _ B B HB HB (Hb v) Havg) as Hab.
  pose proof (Hb v) as Ha.
  set (aa := vdot (offset_at offsets v) (offset_at offsets v)) in *.
  set (bb := vdot (vdivs acc (f_of_nat k)) (vdivs acc (f_of_nat k))) in *.
  set (ab := vdot (offset_at offsets v) (vdivs acc (f_of_nat k))) in *.
  clearbody aa bb ab.
  assert (H1 : 0 <= (1 - lam) * (1 - lam)) by nra.
  assert (H2 : 0 <= lam * (1 - lam)) by nra.
  assert (H3 : 0 <= lam * lam) by nra.
  assert (E1 : (1 - lam) * (1 - lam) * aa <= (1 - lam) * (1 - lam) * (B * B))
    by (apply Rmult_le_compat_l; assumption).
  assert (E2 : lam * (1 - lam) * ab <= lam * (1 - lam) * (B * B))
    by (apply Rmult_le_compat_l; assumption).
  assert (E3 : lam * lam * bb <= lam * lam * (B * B))
    by (apply Rmult_le_compat_l; assumption).
  lra.
Qed.

Lemma smooth_pass_bound (B lam : R) (m : RMesh) (offsets : list RVec) :
  0 <= B -> 0 <= lam <= 1 -> bounded_field B offsets ->
  bounded_field B (smooth_pass m lam offsets).
Proof.
  intros HB Hlam Hb u. unfold smooth_pass, offset_at.
  destruct (Nat.lt_ge_cases u (length (verts m))) as [Hu|Hu].
  - rewrite nth_map_seq by exact Hu. now apply smooth_vertex_bound.
  - rewrite nth_overflow by (now rewrite length_map, length_seq).
    rewrite vdot_vzero_l. nra.
Qed.

Lemma smooth_loop_bound (B lam : R) (k : nat) (m : RMesh)
  (offsets : list RVec) :
  0 <= B -> 0 <= lam <= 1 -> bounded_field B offsets ->
  bounded_field B (smooth_loop k m lam offsets).
Proof.
  intros HB Hlam. revert offsets; induction k as [|k IH]; intros offsets Hb;
    cbn [smooth_loop]; [exact Hb|].
  apply IH, smooth_pass_bound; assumption.
Qed.

(** Removing the normal component does not lengthen an offset. *)
Lemma tangential_shorter (co off : RVec) :
  vdot (tangential co off) (tangential co off) <= vdot off off.
Proof.
  unfold tangential.
  pose proof (normalized_sqr_cases co) as Hn.
  set (n := normalized co) in *.
  assert (E : vdot (vsub off (vmuls n (vdot off n)))
                   (vsub off (vmuls n (vdot off n)))
              = vdot off off - 2 * (vdot off n * vdot off n)
                + vdot n n * (vdot off n * vdot off n)).
  { destruct off, n. unfold_vec. ring. }
  rewrite E. destruct Hn as [-> | ->]; nra.
Qed.

(** X11: if the generator draws numbers of [[0, 1]], the strength is not
    negative and lambda is in [[0, 1]], the offset added to a vertex before
    the projection is never longer than the strength. *)
Theorem jitter_displacement_bounded (g : RngState) (m : RMesh)
  (strength : R) (iters : Z) (lam : R) (seed : Z) (v : nat) :
  unit_draws RG -> 0 <= strength -> 0 <= lam <= 1 ->
  vlength (tangential (vert_co m v)
             (offset_at (fst (jitter_offsets g m strength iters lam seed)) v))
  <= strength.
Proof.
  intros Hu Hs Hlam. rewrite fst_jitter_offsets.
  pose proof (smooth_loop_bound strength lam (smooth_count iters) m _ Hs Hlam
                (initial_offsets_bound strength (verts m)
                   (random_seed seed g) Hu Hs) v) as Hb.
  set (off := offset_at _ v) in *.
  pose proof (tangential_shorter (vert_co m v) off) as Ht.
  unfold vlength. cbn [fsqrt RScalar].
  rewrite <- (sqrt_square strength Hs).
  apply sqrt_le_1_alt. lra.
Qed.

End RealField.

Section RealSmoother.

Local Open Scope R_scope.

Context {RG : Rng R}.

Local Abbreviation RVec := (Vector R).
Local Abbreviation RMesh := (BMesh R).

(** ** The initial offsets *)

Lemma unit_combination (t b : RVec) (ang : R) :
  vdot t t = 1 -> vdot b b = 1 -> vdot t b = 0 ->
  vdot (vadd (smulv (cos ang) t) (smulv (sin ang) b))
       (vadd (smulv (cos ang) t) (smulv (sin ang) b)) = 1.
Proof.
  intros Ht Hb Htb.
  pose proof (sin2_cos2 ang) as Hsc. unfold Rsqr in Hsc.
  assert (E : vdot (vadd (smulv (cos ang) t) (smulv (sin ang) b))
                   (vadd (smulv (cos ang) t) (smulv (sin ang) b))
              = cos ang * cos ang * vdot t t
                + 2 * (cos ang * sin ang) * vdot t b
                + sin ang * sin ang * vdot b b).
  { destruct t, b. unfold_vec. ring. }
  rewrite E, Ht, Hb, Htb. lra.
Qed.

(** X12: for a vertex of square length above [1.0e-35], a generator that
    draws numbers of [[0, 1]] and a strength that is not negative, the
    initial offset of the vertex is orthogonal to its normal and its length
    is between [0.2 * strength] and [strength]. *)
Theorem initial_offset_tangent (strength : R) (co : RVec) (g : RngState) :
  normalizable co -> unit_draws RG -> 0 <= strength ->
  vdot (fst (initial_offset strength co g)) (normalized co) = 0
  /\ 2 / 10 * strength <= vlength (fst (initial_offset strength co g))
     <= strength.
Proof.
  intros H0 Hu Hs.
  pose proof (normalized_unit _ H0) as Hn.
  assert (Hn0 : normalizable (normalized co))
    by (unfold normalizable; lra).
  pose proof (tangent_basis_frame (normalized co) Hn0) as Hframe.
  rewrite normalized_idempotent in Hframe.
  unfold initial_offset.
  destruct (tangent_basis (normalized co)) as [t b]. cbn [fst snd] in Hframe.
  destruct Hframe as (Ht & Hb & Htb & Htn & Hbn).
  destruct (uniform f0 (fmul f2 fpi) g) as [ang g1].
  pose proof (uniform_range lit_0_2 f1 g1 Hu) as Hr.
  destruct (uniform lit_0_2 f1 g1) as [u g2]. cbn [fst] in *.
  assert (Hu2 : 2 / 10 <= u <= 1) by (apply Hr; unfold_vec; lra).
  cbn [fcos fsin fmul RScalar].
  pose proof (unit_combination t b ang Ht Hb Htb) as Hdir.
  rewrite (normalized_of_unit _ Hdir).
  split.
  - rewrite vdot_vmuls_l, vdot_vadd_l, !vdot_smulv_l, Htn, Hbn. ring.
  - assert (Hlen : vlength (vmuls (vadd (smulv (cos ang) t)
                                        (smulv (sin ang) b)) (u * strength))
                   = u * strength).
    { apply vlength_eq; [nra|]. rewrite vdot_vmuls_sqr, Hdir. ring. }
    rewrite Hlen. nra.
Qed.

(** ** Lambda zero and constant fields *)

Lemma vlerp_zero (a b : RVec) : vlerp a b 0 = a.
Proof. destruct a, b. unfold_vec. f_equal; ring. Qed.

Lemma smooth_pass_lambda_zero (m : RMesh) (offsets : list RVec) :
  length offsets = length (verts m) -> smooth_pass m 0 offsets = offsets.
Proof.
  intros Hlen. apply (nth_ext _ _ vzero vzero).
  - now rewrite smooth_pass_length.
  - intros v Hv. rewrite smooth_pass_length in Hv.
    unfold smooth_pass. rewrite nth_map_seq by exact Hv.
    unfold smooth_vertex.
    destruct (accumulate offsets (nbrs m v)) as [acc ln].
    destruct (0 <? ln)%nat; [apply vlerp_zero|reflexivity].
Qed.

Lemma smooth_loop_lambda_zero (k : nat) (m : RMesh) (offsets : list RVec) :
  length offsets = length (verts m) -> smooth_loop k m 0 offsets = offsets.
Proof.
  intros Hlen. induction k as [|k IH]; cbn [smooth_loop]; [reflexivity|].
  now rewrite (smooth_pass_lambda_zero m offsets Hlen).
Qed.

(** X13: with lambda zero the smoothing passes change nothing: for every
    iteration count the result is that of no smoothing at all. *)
Theorem lambda_zero_no_smoothing (g : RngState) (m : RMesh)
  (radius strength : R) (iters : Z) (lam : R) (seed : Z) :
  organic_jitter_dual_on_sphere g m radius strength iters 0 seed
  = organic_jitter_dual_on_sphere g m radius strength 0 lam seed.
Proof.
  unfold organic_jitter_dual_on_sphere, jitter_offsets.
  pose proof (initial_offsets_length strength (verts m)
                (random_seed seed g)) as Hlen.
  destruct (initial_offsets strength (verts m) (random_seed seed g))
    as [offs g']. cbn [fst] in Hlen.
  rewrite (smooth_loop_lambda_zero _ m offs Hlen). reflexivity.
Qed.

Lemma sum_of_copies (c : RVec) (l : list RVec) :
  Forall (eq c) l ->
  fold_left vadd l vzero = vmuls c (INR (length l)).
Proof.
  intros Hall. rewrite fold_vadd_coords.
  assert (Hsum : forall (proj : RVec -> R),
            fold_right Rplus 0 (map proj l) = proj c * INR (length l)).
  { intros proj. induction Hall as [|p l <- Hl IH].
    - cbn [map fold_right length INR]. ring.
    - cbn [map fold_right length]. rewrite IH, S_INR. ring. }
  rewrite !Hsum. destruct c as [x y z]. unfold_vec. f_equal; ring.
Qed.

Lemma smooth_pass_constant (m : RMesh) (c : RVec) (lam : R)
  (offsets : list RVec) :
  edges_in_range m -> constant_field m c offsets ->
  constant_field m c (smooth_pass m lam offsets).
Proof.
  intros Hrange [Hlen Hc]. split; [apply smooth_pass_length|].
  intros v Hv. unfold offset_at at 1, smooth_pass.
  rewrite nth_map_seq by exact Hv.
  unfold smooth_vertex. rewrite accumulate_eq, (Hc v Hv).
  destruct (0 <? length (nbrs m v))%nat eqn:E; [|reflexivity].
  apply Nat.ltb_lt in E.
  rewrite (sum_of_copies c).
  - rewrite length_map. unfold f_of_nat. cbn [f_of_Z RScalar].
    rewrite <- INR_IZR_INZ.
    assert (Hk : INR (length (nbrs m v)) <> 0)
      by (apply not_0_INR; lia).
    destruct c as [x y z]. unfold_vec. f_equal; field; exact Hk.
  - apply Forall_forall. intros p Hp.
    apply in_map_iff in Hp as (u & <- & Hu).
    symmetry. apply Hc.
    unfold nbrs, link_edges in Hu. apply in_map_iff in Hu as (e & <- & He).
    apply filter_In in He as [He _]. destruct (Hrange e He) as [Ha Hb].
    unfold other_vert. now destruct (fst e =? v)%nat.
Qed.

(** X14: on a mesh whose edges join vertices of the mesh, a constant offset
    field is a fixed point of the smoothing, for every lambda and every
    number of passes. *)
Theorem smooth_loop_constant (k : nat) (m : RMesh) (c : RVec) (lam : R)
  (offsets : list RVec) :
  edges_in_range m -> constant_field m c offsets ->
  constant_field m c (smooth_loop k m lam offsets).
Proof.
  intros Hrange. revert offsets; induction k as [|k IH]; intros offsets Hc;
    cbn [smooth_loop]; [exact Hc|].
  apply IH, smooth_pass_constant; assumption.
Qed.

(** ** The inner radius of the shell *)

(** X15: the inner radius is never below [0.01]; it is the sphere radius
    minus the wall thickness whenever that is at least [0.01]; and for a
    positive wall thickness and a sphere radius above [0.01] it is smaller
    than the sphere radius. *)
Theorem inner_radius_clamped (sphere_radius wall_thickness : R) :
  1 / 100 <= inner_radius sphere_radius wall_thickness
  /\ (1 / 100 <= sphere_radius - wall_thickness ->
      inner_radius sphere_radius wall_thickness
      = sphere_radius - wall_thickness)
  /\ (0 < wall_thickness -> 1 / 100 < sphere_radius ->
      inner_radius sphere_radius wall_thickness < sphere_radius).
Proof.
  unfold inner_radius, pymax. cbn [fltb fdiv fsub f_of_Z RScalar].
  destruct (Rltb (1 / 100) (sphere_radius - wall_thickness)) eqn:E.
  - apply Rltb_true in E. repeat split; intros; lra.
  - apply Rltb_false in E. repeat split; intros; lra.
Qed.

End RealSmoother.

Section RealPipeline.

Local Open Scope R_scope.

Context {RG : Rng R}.

Local Abbreviation RVec := (Vector R).
Local Abbreviation RMesh := (BMesh R).

Variable triangulate : RMesh -> RMesh.

Hypothesis triangulate_triangles :
  forall m : RMesh, all_triangles m = true -> triangulate m = m.

(** X16: the dual builder followed by the smoother, on a closed, manifold,
    triangulated base mesh whose face centres have square length above
    [1.0e-35], and with a radius that is not negative: the script gets a
    mesh with one vertex per base face, every vertex at distance [radius]
    from the origin, one face per base vertex of valence three or more, and
    the edges of the dual. *)
Theorem dual_then_jitter_shape (g : RngState) (base : RMesh)
  (radius strength : R) (iters : Z) (lam : R) (seed : Z) :
  all_triangles base = true -> closed_manifold base = true ->
  Forall normalizable
    (map (calc_center_median base) (seq 0 (length (faces base)))) ->
  0 <= radius ->
  exists dual j g',
    build_dual_from_object triangulate base = Ok dual
    /\ dual_then_jitter triangulate g base radius strength iters lam seed
       = Ok (j, g')
    /\ length (verts j) = length (faces base)
    /\ Forall (fun p => vlength p = radius) (verts j)
    /\ faces j = faces dual
    /\ length (faces j)
       = length (fan_vertices base (seq 0 (length (verts base))))
    /\ edges j = edges dual
    /\ edges_in_range j.
Proof.
  intros Htri Hm Hcen Hr.
  destruct (dual_loop_faces triangulate base Hm
              (seq 0 (length (verts base))) []
              (mkBMesh (map (calc_center_median base)
                            (seq 0 (length (faces base)))) [] []))
    as (dual & Hloop & Hfaces).
  { apply seq_NoDup. }
  { intros v Hv. apply in_seq in Hv. cbn [app] in *. lia. }
  { reflexivity. }
  assert (Hd : build_dual_from_object triangulate base = Ok dual).
  { rewrite build_dual_unfold, (triangulate_triangles _ Htri). exact Hloop. }
  pose proof (build_dual_verts_length triangulate base dual Hd) as Hn.
  rewrite (triangulate_triangles _ Htri) in Hn.
  destruct (organic_jitter_dual_on_sphere g dual radius strength iters lam
              seed) as [j g'] eqn:Ej.
  exists dual, j, g'. split; [exact Hd|].
  split; [unfold dual_then_jitter; now rewrite Hd, Ej|].
  pose proof (jitter_verts g dual radius strength iters lam seed) as Hv.
  rewrite Ej in Hv. cbn [fst] in Hv.
  assert (Hlen : length (verts j) = length (verts dual)).
  { rewrite Hv. now rewrite length_map, length_seq. }
  assert (Hef : edges j = edges dual /\ faces j = faces dual).
  { unfold organic_jitter_dual_on_sphere in Ej.
    destruct (jitter_offsets g dual strength iters lam seed) as [offs g1].
    injection Ej as <- _. now split. }
  destruct Hef as [He Hf].
  split; [now rewrite Hlen|]. split.
  { rewrite Hv. apply Forall_forall. intros p Hp.
    apply in_map_iff in Hp as (v & <- & Hin). apply in_seq in Hin.
    apply apply_offset_on_sphere; [exact Hr|].
    rewrite Forall_forall in Hcen. apply Hcen.
    rewrite <- (triangulate_triangles _ Htri) at 1 2.
    rewrite <- (build_dual_verts triangulate base dual Hd).
    apply nth_In. lia. }
  split; [exact Hf|]. split.
  { rewrite Hf, Hfaces. cbn [app]. now rewrite length_map. }
  split; [exact He|].
  pose proof (dual_edges_in_range triangulate base dual Hd) as Hrange.
  intros e Hin. rewrite He in Hin. rewrite Hlen. now apply Hrange.
Qed.

End RealPipeline.

Section RealSortOrder.

Local Open Scope R_scope.

Local Abbreviation RMesh := (BMesh R).

(** ** Faces with equal angles *)

Lemma insert_by_key_stable (k : R) (x : R * nat) (l : list (R * nat)) :
  filter (fun it => Reqb (fst it) k) (insert_by_key x l)
  = filter (fun it => Reqb (fst it) k) (x :: l).
Proof.
  induction l as [|y l IH]; [reflexivity|].
  cbn [insert_by_key fltb RScalar].
  destruct (Rltb (fst y) (fst x)) eqn:E; [|reflexivity].
  apply Rltb_true in E.
  cbn [filter] in *. rewrite IH.
  destruct (Reqb (fst y) k) eqn:Ey; destruct (Reqb (fst x) k) eqn:Ex;
    try reflexivity.
  apply Reqb_true in Ey, Ex. lra.
Qed.

Lemma sort_by_key_stable (k : R) (l : list (R * nat)) :
  filter (fun it => Reqb (fst it) k) (sort_by_key l)
  = filter (fun it => Reqb (fst it) k) l.
Proof.
  induction l as [|x l IH]; [reflexivity|].
  cbn [sort_by_key fold_right]. rewrite insert_by_key_stable.
  cbn [filter]. fold (sort_by_key l). now rewrite IH.
Qed.

Lemma filter_map_snd (P : nat -> bool) (l : list (R * nat)) :
  filter P (map snd l) = map snd (filter (fun it => P (snd it)) l).
Proof.
  induction l as [|x l IH]; [reflexivity|].
  cbn [map filter]. destruct (P (snd x)); cbn [map]; now rewrite IH.
Qed.

Lemma filter_keyed_items (key : nat -> R) (k : R) (l : list nat) :
  map snd (filter (fun it => Reqb (fst it) k) (map (fun f => (key f, f)) l))
  = filter (fun f => Reqb (key f) k) l.
Proof.
  induction l as [|f l IH]; [reflexivity|].
  cbn [map filter fst]. destruct (Reqb (key f) k); cbn [map snd];
    now rewrite IH.
Qed.

(** X17: the sort of the incident faces is stable: for every listing
    [linked] of the faces around a vertex, as the host gives it, the faces
    that have one and the same angle follow each other, in the order of the
    sort, as they do in [linked]. *)
Theorem equal_angles_keep_order (bm : RMesh) (v : nat) (linked : list nat)
  (k : R) :
  filter (fun f => Reqb (guarded_angle bm v f) k)
         (map snd (sort_by_key (items_of bm v linked)))
  = filter (fun f => Reqb (guarded_angle bm v f) k) linked.
Proof.
  rewrite items_of_guarded, filter_map_snd.
  rewrite (filter_ext_in
             (fun it => Reqb (guarded_angle bm v (snd it)) k)
             (fun it => Reqb (fst it) k)).
  - rewrite sort_by_key_stable. apply filter_keyed_items.
  - intros it Hit. apply (Permutation_in _ (sort_by_key_perm _)) in Hit.
    apply in_map_iff in Hit as (f & <- & _). reflexivity.
Qed.

End RealSortOrder.

Section ExtraSamples.

Local Open Scope R_scope.

Lemma lcg_unit_draws : unit_draws LcgRng.
Proof.
  intros g. cbn [rng_random LcgRng fst].
  assert (Hb : (0 <= lcg_next g < 2147483648)%Z)
    by (unfold lcg_next; apply Z.mod_pos_bound; lia).
  destruct Hb as [Hlo Hhi]. apply IZR_le in Hlo. apply IZR_lt in Hhi.
  split.
  - apply Rmult_le_pos; [exact Hlo|]. apply Rlt_le, Rinv_0_lt_compat. lra.
  - apply (Rmult_le_reg_r 2147483648); [lra|].
    unfold Rdiv. rewrite Rmult_assoc, Rinv_l by lra. lra.
Qed.

Lemma vlength_x : vlength (rvec 1 0 0) = 1.
Proof. apply vlength_eq; [lra|sc_eq]. Qed.

Lemma normalizable_x : normalizable (rvec 1 0 0).
Proof. unfold normalizable. sc_eq. Qed.

Lemma normalizable_123 : normalizable (rvec 1 2 3).
Proof. unfold normalizable. sc_eq. Qed.

Lemma normalizable_246 : normalizable (smulv 2 (rvec 1 2 3)).
Proof. unfold normalizable. sc_eq. Qed.

Lemma octahedron_centres_normalizable :
  Forall normalizable
    (map (calc_center_median octahedron)
         (seq 0 (length (faces octahedron)))).
Proof.
  change (seq 0 (length (faces octahedron)))
    with [0; 1; 2; 3; 4; 5; 6; 7]%nat.
  cbn [map]. unfold normalizable, calc_center_median, face_at, octahedron,
    vert_co.
  cbn [faces verts nth map fold_left length]. unfold f_of_nat.
  change (Z.of_nat 3) with 3%Z.
  repeat constructor; sc_eq.
Qed.

Lemma path_mesh_edges_in_range : edges_in_range path_mesh.
Proof.
  intros e He. cbn [path_mesh edges verts length] in *.
  destruct He as [<-|[<-|[]]]; cbn [fst snd]; lia.
Qed.

Lemma path_mesh_constant :
  constant_field path_mesh (rvec 1 2 3)
    [rvec 1 2 3; rvec 1 2 3; rvec 1 2 3; rvec 1 2 3].
Proof.
  split; [reflexivity|]. intros u Hu. cbn [path_mesh verts length] in Hu.
  do 4 (destruct u as [|u]; [reflexivity|]). lia.
Qed.

Lemma nbrs_symmetric_witness :
  (In 0%nat (nbrs path_mesh 1) <-> In 1%nat (nbrs path_mesh 0))
  /\ (In 0%nat (nbrs path_mesh 1)
      <-> In (1, 0)%nat (edges path_mesh) \/ In (0, 1)%nat (edges path_mesh)).
Proof. exact (nbrs_symmetric path_mesh 0%nat 1%nat). Defined.

Lemma dual_faces_well_formed_witness :
  exists d,
    build_dual_from_object (fun m => m) octahedron = Ok d
    /\ Forall (fun fc =>
         (3 <= length fc)%nat
         /\ NoDup fc
         /\ Forall (fun x => (x < length (verts d))%nat) fc
         /\ exists v, forall f,
              In f fc <-> (f < length (faces octahedron))%nat
                          /\ In v (face_at octahedron f))
       (faces d).
Proof. exact (dual_faces_well_formed (fun m => m) octahedron). Defined.

Lemma tangent_basis_orthonormal_witness :
  normalizable (rvec 1 0 0)
  /\ vdot (fst (tangent_basis (rvec 1 0 0))) (snd (tangent_basis (rvec 1 0 0)))
     = 0.
Proof.
  split; [exact normalizable_x|].
  exact (proj1 (proj2 (proj2
           (tangent_basis_orthonormal (rvec 1 0 0) normalizable_x)))).
Defined.

Lemma project_idempotent_witness :
  (vlength (rvec 1 2 3) = 0 \/ normalizable (rvec 1 2 3))
  /\ (60 = 0
      \/ (0 < 60 /\ 1 / 100000000000000000000000000000000000 < 60 * 60))
  /\ project_to_radius (project_to_radius (rvec 1 2 3) 60) 60
     = project_to_radius (rvec 1 2 3) 60.
Proof.
  assert (Hp : vlength (rvec 1 2 3) = 0 \/ normalizable (rvec 1 2 3))
    by (right; exact normalizable_123).
  assert (Hr : 60 = 0
               \/ (0 < 60
                   /\ 1 / 100000000000000000000000000000000000 < 60 * 60))
    by (right; lra).
  split; [exact Hp|]. split; [exact Hr|].
  exact (project_idempotent (rvec 1 2 3) 60 Hp Hr).
Defined.

Lemma project_scale_invariant_witness :
  0 < 2 /\ normalizable (rvec 1 2 3) /\ normalizable (smulv 2 (rvec 1 2 3))
  /\ project_to_radius (smulv 2 (rvec 1 2 3)) 60
     = project_to_radius (rvec 1 2 3) 60.
Proof.
  assert (Hs : 0 < 2) by lra.
  split; [exact Hs|]. split; [exact normalizable_123|].
  split; [exact normalizable_246|].
  exact (project_scale_invariant 2 (rvec 1 2 3) 60 Hs normalizable_123
           normalizable_246).
Defined.

Lemma apply_offset_same_side_witness :
  normalizable (rvec 1 0 0) /\ 0 < 60
  /\ 0 < vdot (apply_offset 60 (rvec 1 0 0) (rvec 3 4 5)) (rvec 1 0 0).
Proof.
  assert (Hr : 0 < 60) by lra.
  split; [exact normalizable_x|]. split; [exact Hr|].
  exact (proj2 (apply_offset_same_side 60 (rvec 1 0 0) (rvec 3 4 5)
                  normalizable_x Hr)).
Defined.

Lemma jitter_displacement_bounded_witness :
  unit_draws LcgRng /\ 0 <= 3 /\ 0 <= 55 / 100 <= 1
  /\ vlength (tangential (vert_co octahedron 0)
                (offset_at (fst (jitter_offsets (RG := LcgRng) 0%Z octahedron
                                   3 10 (55 / 100) 7)) 0))
     <= 3.
Proof.
  assert (Hs : 0 <= 3) by lra.
  assert (Hl : 0 <= 55 / 100 <= 1) by lra.
  split; [exact lcg_unit_draws|]. split; [exact Hs|]. split; [exact Hl|].
  exact (jitter_displacement_bounded (RG := LcgRng) 0%Z octahedron 3 10
           (55 / 100) 7 0%nat lcg_unit_draws Hs Hl).
Defined.

Lemma initial_offset_tangent_witness :
  normalizable (rvec 1 0 0) /\ unit_draws LcgRng /\ 0 <= 3
  /\ vdot (fst (initial_offset (RG := LcgRng) 3 (rvec 1 0 0) 7%Z))
          (normalized (rvec 1 0 0)) = 0.
Proof.
  assert (Hs : 0 <= 3) by lra.
  split; [exact normalizable_x|]. split; [exact lcg_unit_draws|].
  split; [exact Hs|].
  exact (proj1 (initial_offset_tangent (RG := LcgRng) 3 (rvec 1 0 0) 7%Z
                  normalizable_x lcg_unit_draws Hs)).
Defined.

Lemma smooth_loop_constant_witness :
  edges_in_range path_mesh
  /\ constant_field path_mesh (rvec 1 2 3)
       [rvec 1 2 3; rvec 1 2 3; rvec 1 2 3; rvec 1 2 3]
  /\ constant_field path_mesh (rvec 1 2 3)
       (smooth_loop 10 path_mesh (55 / 100)
          [rvec 1 2 3; rvec 1 2 3; rvec 1 2 3; rvec 1 2 3]).
Proof.
  split; [exact path_mesh_edges_in_range|].
  split; [exact path_mesh_constant|].
  exact (smooth_loop_constant 10 path_mesh (rvec 1 2 3) (55 / 100) _
           path_mesh_edges_in_range path_mesh_constant).
Defined.

Lemma inner_radius_clamped_witness :
  (1 / 100 <= 60 - 3 / 2 /\ inner_radius 60 (3 / 2) = 60 - 3 / 2)
  /\ (0 < 3 / 2 /\ 1 / 100 < 60 /\ inner_radius 60 (3 / 2) < 60).
Proof.
  assert (H1 : 1 / 100 <= 60 - 3 / 2) by lra.
  assert (H2 : 0 < 3 / 2) by lra.
  assert (H3 : 1 / 100 < 60) by lra.
  destruct (inner_radius_clamped 60 (3 / 2)) as (_ & Heq & Hlt).
  split; split; [exact H1 | exact (Heq H1) | exact H2 |].
  split; [exact H3 | exact (Hlt H2 H3)].
Defined.

Lemma dual_then_jitter_shape_witness :
  all_triangles octahedron = true /\ closed_manifold octahedron = true
  /\ Forall normalizable
       (map (calc_center_median octahedron)
            (seq 0 (length (faces octahedron))))
  /\ 0 <= 1
  /\ exists dual j g',
       build_dual_from_object (fun m => m) octahedron = Ok dual
       /\ dual_then_jitter (RG := LcgRng) (fun m => m) 0%Z octahedron 1 3 10
            (55 / 100) 7 = Ok (j, g')
       /\ length (verts j) = length (faces octahedron)
       /\ Forall (fun p => vlength p = 1) (verts j)
       /\ faces j = faces dual
       /\ length (faces j)
          = length (fan_vertices octahedron
                      (seq 0 (length (verts octahedron))))
       /\ edges j = edges dual
       /\ edges_in_range j.
Proof.
  assert (Hr : 0 <= 1) by lra.
  split; [reflexivity|]. split; [reflexivity|].
  split; [exact octahedron_centres_normalizable|]. split; [exact Hr|].
  exact (dual_then_jitter_shape (RG := LcgRng) (fun m => m)
           (fun m _ => eq_refl) 0%Z octahedron 1 3 10 (55 / 100) 7
           eq_refl eq_refl octahedron_centres_normalizable Hr).
Defined.

End ExtraSamples.
